(** * Dependency nodes of dephell: release grouping, selection and merge

    A shallow embedding of [dephell/models/dependency.py]: the [Dependency]
    class with its [cached_property] caches, the grouping of releases by
    their dependency lists, the lock state and [merge].

    The instance [__dict__] entries written by [cached_property] are explicit
    option fields; [Group] objects live in a store and are referred to by
    address, so that [self.group] and the members of [self.groups] alias as
    they do in Python; exceptions are values of a result type. *)

From Stdlib Require Import String Ascii NArith.
From stdpp Require Import base option list strings sorting.
From Stdlib Require Import Lia.

Local Open Scope string_scope.
Local Open Scope list_scope.

(** ** Strings: ordering, [sorted] and [str.join] *)

Module Str.

(** Python compares [str] values lexicographically by code point; this is
    [String.leb]. *)
Definition leb (s1 s2 : string) : bool := String.leb s1 s2.

(** [sorted(xs)] on strings. *)
Fixpoint insert (x : string) (l : list string) : list string :=
  match l with
  | [] => [x]
  | y :: l' => if leb x y then x :: y :: l' else y :: insert x l'
  end.

Definition sorted (l : list string) : list string := foldr insert [] l.

(** [sep.join(xs)]. *)
Definition join (sep : string) (l : list string) : string :=
  String.concat sep l.

(** [needle in s] on strings. *)
Fixpoint contains (needle s : string) : bool :=
  if String.prefix needle s then true
  else match s with
       | EmptyString => false
       | String _ s' => contains needle s'
       end.

(** The truth value of a string: only the empty string is false. *)
Definition truthy (s : string) : bool :=
  match s with EmptyString => false | _ => true end.

End Str.

(** ** Versions, requirements and releases *)

(** Modelled from the spec: the [Version] type of a release is not part of
    this module.  A version is its sequence of numeric components, ordered
    lexicographically ([1.5 < 1.9 < 2.0]). *)
Definition Version := list nat.

Fixpoint version_compare (v1 v2 : Version) : comparison :=
  match v1, v2 with
  | [], [] => Eq
  | [], _ :: _ => Lt
  | _ :: _, [] => Gt
  | a :: v1', b :: v2' =>
      match Nat.compare a b with
      | Eq => version_compare v1' v2'
      | c => c
      end
  end.

Definition version_ltb (v1 v2 : Version) : bool :=
  match version_compare v1 v2 with Lt => true | _ => false end.

Definition version_leb (v1 v2 : Version) : bool :=
  match version_compare v1 v2 with Gt => false | _ => true end.

(** Modelled from the spec: a [Requirement] (section 6) has a package name
    and a version-range expression; [str(req)] writes one after the other. *)
Record Requirement := mkRequirement {
  req_name : string;
  req_specifier : string;
}.

Definition requirement_str (r : Requirement) : string :=
  req_name r ++ req_specifier r.

(** Modelled from the spec: a [Release] (section 6) has a name, a version and
    a [dependencies] field that is absent until it has been fetched.
    Releases are ordered by version. *)
Record Release := mkRelease {
  rel_name : string;
  rel_version : Version;
  rel_dependencies : option (list Requirement);
}.

Global Instance Requirement_eq_dec : EqDecision Requirement.
Proof. solve_decision. Defined.

Global Instance Release_eq_dec : EqDecision Release.
Proof. solve_decision. Defined.

Definition release_ltb (r1 r2 : Release) : bool :=
  version_ltb (rel_version r1) (rel_version r2).

(** [release.dependencies], read by [groups] after [_fetch_releases_deps]
    has assigned it on every release (see [fetch_deps_resolved]); an
    unassigned field reads as the empty tuple here. *)
Definition dependencies_of (r : Release) : list Requirement :=
  default [] (rel_dependencies r).

(** ** Grouping releases by their dependencies *)

(** [key = '|'.join(sorted(map(str, release.dependencies)))] *)
Definition fingerprint (r : Release) : string :=
  Str.join "|" (Str.sorted (map requirement_str (dependencies_of r))).

(** [s.add(r)] on a set, kept as a duplicate-free list. *)
Definition set_add (r : Release) (s : list Release) : list Release :=
  if bool_decide (r ∈ s) then s else s ++ [r].

(** [groups[key].add(release)] on a [defaultdict(set)]; a dict keeps its keys
    in the order of their first insertion. *)
Fixpoint dict_add (key : string) (r : Release)
    (d : list (string * list Release)) : list (string * list Release) :=
  match d with
  | [] => [(key, set_add r [])]
  | (k, s) :: d' =>
      if String.eqb k key then (k, set_add r s) :: d'
      else (k, s) :: dict_add key r d'
  end.

Definition group_releases (rs : list Release) : list (string * list Release) :=
  foldl (fun d r => dict_add (fingerprint r) r d) [] rs.

(** [max(s)] on a set of releases: the first maximal element met; the empty
    set has none ([ValueError] in Python). *)
Fixpoint max_from (best : Release) (s : list Release) : Release :=
  match s with
  | [] => best
  | r :: s' => max_from (if release_ltb best r then r else best) s'
  end.

Definition set_max (s : list Release) : option Release :=
  match s with
  | [] => None
  | r :: s' => Some (max_from r s')
  end.

(** The version of the newest release of a set. *)
Definition latest (s : list Release) : Version :=
  from_option rel_version [] (set_max s).

(** [sorted(groups.values(), key=max, reverse=True)]: a stable sort, newest
    first; sets whose newest releases compare equal keep their order. *)
Fixpoint insert_desc (s : list Release) (l : list (list Release))
    : list (list Release) :=
  match l with
  | [] => [s]
  | t :: l' =>
      if version_ltb (latest s) (latest t) then t :: insert_desc s l'
      else s :: t :: l'
  end.

Definition sort_groups (l : list (list Release)) : list (list Release) :=
  foldr insert_desc [] l.

(** Modelled from the spec: the [Group] class is not part of this module.  A
    group has a sequence number, the full set of releases sharing one
    fingerprint ([all_releases]) and the subset that satisfies the owner's
    constraint ([releases]); [Group(releases=s, number=n)] starts with both
    sets equal to [s]; [empty] says that [releases] is empty. *)
Module Group.

Record t := mk {
  number : nat;
  all_releases : list Release;
  releases : list Release;
}.

Definition new (s : list Release) (n : nat) : t :=
  {| number := n; all_releases := s; releases := s |}.

Definition empty (g : t) : bool :=
  match releases g with [] => true | _ => false end.

(** [group.releases = rs] *)
Definition set_releases (rs : list Release) (g : t) : t :=
  {| number := number g; all_releases := all_releases g; releases := rs |}.

(** What grouping decides of a group: its number and its members. *)
Definition shape (g : t) : nat * list Release := (number g, all_releases g).

End Group.

(** [tuple(Group(releases=releases, number=number)
         for number, releases in enumerate(groups))] *)
Fixpoint enumerate_groups (n : nat) (l : list (list Release)) : list Group.t :=
  match l with
  | [] => []
  | s :: l' => Group.new s n :: enumerate_groups (S n) l'
  end.

(** The groups of a list of releases whose dependencies are known, before
    they are filtered by a constraint. *)
Definition make_groups (rs : list Release) : list Group.t :=
  enumerate_groups 0 (sort_groups (map snd (group_releases rs))).

(** *** Notions used to state what grouping does *)

(** What holds of the dict while the releases are being grouped: its keys
    are distinct, no set is empty, and every release sits under its own
    fingerprint. *)
Definition dict_ok (d : list (string * list Release)) : Prop :=
  NoDup (map fst d) ∧
  ∀ k s, (k, s) ∈ d → s ≠ [] ∧ ∀ r, r ∈ s → fingerprint r = k.

(** Grouping, started from a dict that is already filled. *)
Definition group_from (d : list (string * list Release)) (rs : list Release)
    : list (string * list Release) :=
  foldl (fun d r => dict_add (fingerprint r) r d) d rs.

(** The distinct strings of a list, in the order in which they are first
    met. *)
Definition first_met (keys : list string) : list string :=
  foldl (fun acc k => if bool_decide (k ∈ acc) then acc else acc ++ [k])
        [] keys.

(** The newest release of [s] is not older than the newest release of [t]. *)
Definition not_older (s t : list Release) : Prop :=
  version_ltb (latest s) (latest t) = false.

(** [r] is a newest member of [s]: a member than which no member of [s] has
    a greater version. *)
Definition newest_in (s : list Release) (r : Release) : Prop :=
  r ∈ s ∧
  ∀ r', r' ∈ s → version_ltb (rel_version r) (rel_version r') = false.

(** A newest member of [s] is not older than any member of [t]. *)
Definition newest_not_older (s t : list Release) : Prop :=
  ∃ r, newest_in s r ∧
       ∀ r', r' ∈ t → version_ltb (rel_version r) (rel_version r') = false.

(** Two releases are members of one and the same group. *)
Definition same_group (gs : list Group.t) (r1 r2 : Release) : Prop :=
  ∃ g, g ∈ gs ∧ r1 ∈ Group.all_releases g ∧ r2 ∈ Group.all_releases g.

(** The fingerprint as section 4.2 of the specification words it: the
    sorted, deduplicated string representation of the dependency list. *)
Definition sorted_deduplicated (r : Release) : list string :=
  remove_dups (Str.sorted (map requirement_str (dependencies_of r))).

(** ** Exceptions, links and repositories *)

Inductive Exn :=
  | MergeError (msg : string)
  | AttributeError (msg : string)
  | KeyError (key : string)
  | RecursionError.

Inductive Res (A : Type) :=
  | Ok (a : A)
  | Raise (e : Exn).
Arguments Ok {A} a.
Arguments Raise {A} e.

(** The result of [parse_link]: a [GitRepo] with its server and an optional
    revision pin, or a link of any other kind; [None] when there is none.
    Every link carries a [name], possibly empty. *)
Inductive Link :=
  | GitRepo (name server : string) (rev : option string)
  | OtherLink (name : string).

Definition link_name (l : Link) : string :=
  match l with
  | GitRepo n _ _ => n
  | OtherLink n => n
  end.

(** [isinstance(link, GitRepo)] *)
Definition is_GitRepo (l : option Link) : bool :=
  match l with
  | Some (GitRepo _ _ _) => true
  | _ => false
  end.

(** The truth value of [link.rev]: a revision that is [None] or empty is no
    pin. *)
Definition rev_truthy (rev : option string) : bool :=
  from_option Str.truthy false rev.

Definition rev_eqb (r1 r2 : option string) : bool :=
  bool_decide (r1 = r2).

(** The repository behind a node.  Its answers may change from one request
    to the next: both methods take the number of requests served so far.
    [get_releases] is given the node, of which it sees the name.  Both
    methods answer: the node handles no exception of the repository, which
    ends the method that made the request, and such runs are not described
    here. *)
Record Repo := mkRepo {
  get_releases : nat -> string -> list Release;
  get_dependencies : nat -> string -> Version -> list Requirement;
}.

(** The [Constraint] class is not part of this module: a node is written
    against its interface.  [Spec] is the raw specifier that
    [Constraint(source, spec)] wraps; a source is known by its name. *)
Class ConstraintOps (C Spec : Type) := {
  (** [Constraint(source, spec)] *)
  Constraint : string -> Spec -> C;
  (** [constraint._specs[source.name] = GitSpecifier()] *)
  set_git_specifier : string -> C -> C;
  (** [constraint.merge(other)], which may raise *)
  constraint_merge : C -> C -> Res C;
  (** [constraint.unapply(name)] *)
  constraint_unapply : string -> C -> C;
  (** [constraint.filter(releases)] *)
  constraint_filter : C -> list Release -> list Release;
}.

(** [rex_hash = re.compile(r'[a-f0-9]{7}')], used with [fullmatch]. *)
Definition is_hash_char (c : ascii) : bool :=
  let n := nat_of_ascii c in
  (((97 <=? n) && (n <=? 102)) || ((48 <=? n) && (n <=? 57)))%nat.

Definition rex_hash_fullmatch (s : string) : bool :=
  (String.length s =? 7)%nat && forallb is_hash_char (list_ascii_of_string s).

(** ** The node *)

Module Dependency.
Section Node.

Context {C Spec : Type} `{!ConstraintOps C Spec}.

(** [parse_link] and [get_repo] live in other modules. *)
Variable parse_link : option string -> option Link.
Variable get_repo : option Link -> Repo.

(** Addresses of [Group] objects in the store. *)
Definition addr := nat.

(** The attributes of a node that the methods below read or write (the
    informational ones - description, authors, links, classifiers - are
    left out), followed by the entries that [cached_property] writes into
    the instance [__dict__]: absent ([None]) until first read.  The cached
    [group] is itself [None] in Python when no group was found. *)
Record t := mk {
  raw_name : string;
  constraint : C;
  repo : Repo;
  link : option Link;
  applied : bool;
  extras : list string;
  marker : option string;
  dict_all_releases : option (list Release);
  dict_groups : option (list addr);
  dict_group : option (option addr);
}.

Definition set_constraint (c : C) (d : t) : t :=
  mk (raw_name d) c (repo d) (link d) (applied d) (extras d) (marker d)
     (dict_all_releases d) (dict_groups d) (dict_group d).
Definition set_repo (r : Repo) (d : t) : t :=
  mk (raw_name d) (constraint d) r (link d) (applied d) (extras d) (marker d)
     (dict_all_releases d) (dict_groups d) (dict_group d).
Definition set_link (l : option Link) (d : t) : t :=
  mk (raw_name d) (constraint d) (repo d) l (applied d) (extras d) (marker d)
     (dict_all_releases d) (dict_groups d) (dict_group d).
Definition set_dict_all_releases (x : option (list Release)) (d : t) : t :=
  mk (raw_name d) (constraint d) (repo d) (link d) (applied d) (extras d)
     (marker d) x (dict_groups d) (dict_group d).
Definition set_dict_groups (x : option (list addr)) (d : t) : t :=
  mk (raw_name d) (constraint d) (repo d) (link d) (applied d) (extras d)
     (marker d) (dict_all_releases d) x (dict_group d).
Definition set_dict_group (x : option (option addr)) (d : t) : t :=
  mk (raw_name d) (constraint d) (repo d) (link d) (applied d) (extras d)
     (marker d) (dict_all_releases d) (dict_groups d) x.

(** What a method of the node can touch: the node itself, the [Group]
    objects, and the number of requests made to repositories so far. *)
Record World := mkWorld {
  self : t;
  store : list Group.t;
  requests : nat;
}.

(** A method runs on a world and returns or raises; what it wrote before
    raising stays written. *)
Definition M (A : Type) : Type := World -> Res A * World.

Global Instance M_ret : MRet M := fun A a w => (Ok a, w).
Global Instance M_bind : MBind M := fun A B f m w =>
  match m w with
  | (Ok a, w') => f a w'
  | (Raise e, w') => (Raise e, w')
  end.

Definition raise {A} (e : Exn) : M A := fun w => (Raise e, w).
Definition get_self : M t := fun w => (Ok (self w), w).
Definition get_store : M (list Group.t) := fun w => (Ok (store w), w).
Definition update_self (f : t -> t) : M unit := fun w =>
  (Ok tt, mkWorld (f (self w)) (store w) (requests w)).
Definition update_store (f : list Group.t -> list Group.t) : M unit :=
  fun w => (Ok tt, mkWorld (self w) (f (store w)) (requests w)).

(** [for x in xs: body(x)] *)
Fixpoint for_each {A} (xs : list A) (body : A -> M unit) : M unit :=
  match xs with
  | [] => mret tt
  | x :: xs' => body x ≫= fun _ => for_each xs' body
  end.

(** *** Constructor *)

(** The [source] and [constraint] arguments of [from_params]: with a
    source, [constraint] is a raw specifier to wrap; without one it already
    is a [Constraint]. *)
Inductive ConstraintArg :=
  | WithSource (source_name : string) (spec : Spec)
  | Ready (c : C).

Definition from_params (raw_name : string) (constraint : ConstraintArg)
    (url : option string) (repo : option Repo)
    (applied : bool) (extras : list string) (marker : option string)
    : Res t :=
  (* make link *)
  let link := parse_link url in
  let raw_name :=
    match link with
    | Some l =>
        if Str.truthy (link_name l) && rex_hash_fullmatch raw_name
        then link_name l else raw_name
    | None => raw_name
    end in
  (* make constraint; [source.name] of an absent source is an error *)
  let constraint : Res C :=
    match constraint with
    | WithSource src spec =>
        let c := Constraint src spec in
        Ok (if is_GitRepo link then set_git_specifier src c else c)
    | Ready c =>
        if is_GitRepo link
        then Raise (AttributeError "'NoneType' object has no attribute 'name'")
        else Ok c
    end in
  match constraint with
  | Raise e => Raise e
  | Ok c =>
      (* make repo *)
      let repo := from_option id (get_repo link) repo in
      Ok (mk raw_name c repo link applied extras marker None None None)
  end.

(** A requirement as [from_requirement] reads it: its name, specifier, URL,
    extras and marker. *)
Record Req := mkReq {
  rq_name : string;
  rq_specifier : Spec;
  rq_url : option string;
  rq_extras : list string;
  rq_marker : option string;
}.

(** [url or req.url]: an absent or empty [url] gives way to [req.url]. *)
Definition url_or (url other : option string) : option string :=
  match url with
  | Some u => if Str.truthy u then Some u else other
  | None => other
  end.

(** [from_requirement(source, req, url)]; the source is known by its
    name. *)
Definition from_requirement (source_name : string) (req : Req)
    (url : option string) : t :=
  let link := parse_link (url_or url (rq_url req)) in
  (* make constraint *)
  let constraint := Constraint source_name (rq_specifier req) in
  let constraint :=
    if is_GitRepo link then set_git_specifier source_name constraint
    else constraint in
  mk (rq_name req) constraint (get_repo link) link false
     (rq_extras req) (rq_marker req) None None None.

(** *** Properties *)

(** [self.repo.get_releases(self)]: one request. *)
Definition request_releases : M (list Release) := fun w =>
  (Ok (get_releases (repo (self w)) (requests w) (raw_name (self w))),
   mkWorld (self w) (store w) (S (requests w))).

(** [all_releases] (cached) *)
Definition all_releases : M (list Release) :=
  d ← get_self;
  match dict_all_releases d with
  | Some rs => mret rs
  | None =>
      rs ← request_releases;
      update_self (set_dict_all_releases (Some rs)) ≫= fun _ => mret rs
  end.

(** The requests of [_fetch_releases_deps]: one for each release whose
    [dependencies] are not known yet, in the order of the releases; the
    answers are then assigned to the releases. *)
Fixpoint fetch_deps (rp : Repo) (n : nat) (rs : list Release)
    : list Release * nat :=
  match rs with
  | [] => ([], n)
  | r :: rs' =>
      match rel_dependencies r with
      | Some _ =>
          let '(out, n') := fetch_deps rp n rs' in (r :: out, n')
      | None =>
          let ds := get_dependencies rp n (rel_name r) (rel_version r) in
          let '(out, n') := fetch_deps rp (S n) rs' in
          (mkRelease (rel_name r) (rel_version r) (Some ds) :: out, n')
      end
  end.

(** [_fetch_releases_deps]: the releases are updated in place, so the
    cached tuple of [all_releases] shows the assigned dependencies. *)
Definition assign_deps (rs : list Release) : M unit := fun w =>
  let '(rs', n') := fetch_deps (repo (self w)) (requests w) rs in
  (Ok tt, mkWorld (set_dict_all_releases (Some rs') (self w)) (store w) n').

Definition _fetch_releases_deps : M unit :=
  rs ← all_releases;
  assign_deps rs.

(** [group.releases = filtrate(group.all_releases)], on a group and on the
    object at [a]. *)
Definition refilter (c : C) (g : Group.t) : Group.t :=
  Group.set_releases (constraint_filter c (Group.all_releases g)) g.

Definition filter_group (a : addr) : M unit :=
  d ← get_self;
  update_store (alter (refilter (constraint d)) a).

(** [_actualize_groups(force, groups)], with the property [self.groups] it
    reads passed in, since that property calls it in turn. *)
Definition _actualize_groups_in (self_groups : M (list addr))
    (force : bool) (groups : option (list addr)) : M bool :=
  let filtrate (gs : list addr) : M bool :=
    for_each gs filter_group ≫= fun _ => mret true in
  match groups with
  | Some (a :: gs) => filtrate (a :: gs)
  | _ =>
      (* [not groups]: no argument, or an empty tuple *)
      d ← get_self;
      if negb force && negb (bool_decide (is_Some (dict_groups d)))
      then mret false
      else self_groups ≫= filtrate
  end.

(** The new [Group] objects are put in the store. *)
Definition alloc_groups (gs : list Group.t) : M (list addr) := fun w =>
  (Ok (seq (length (store w)) (length gs)),
   mkWorld (self w) (store w ++ gs) (requests w)).

(** [groups] (cached).  While it runs, [groups] is not yet in the instance
    [__dict__]; a nested read of [self.groups] would run it again without
    end. *)
Definition groups : M (list addr) :=
  d ← get_self;
  match dict_groups d with
  | Some gs => mret gs
  | None =>
      (* fetch releases *)
      _ ← _fetch_releases_deps;
      (* group releases by their dependencies, sort groups by latest
         release, convert every group to Group object *)
      rs ← all_releases;
      gs ← alloc_groups (make_groups rs);
      _ ← _actualize_groups_in (raise RecursionError) false (Some gs);
      update_self (set_dict_groups (Some gs)) ≫= fun _ => mret gs
  end.

Definition _actualize_groups (force : bool) (groups' : option (list addr))
    : M bool :=
  _actualize_groups_in groups force groups'.

(** [group.empty] of the object at [a]. *)
Definition empty_at (h : list Group.t) (a : addr) : bool :=
  from_option Group.empty true (h !! a).

(** [group] (cached): the first group that is not empty, [None] when the
    loop ends without one. *)
Definition group : M (option addr) :=
  d ← get_self;
  match dict_group d with
  | Some g => mret g
  | None =>
      gs ← groups;
      h ← get_store;
      let g := List.find (fun a => negb (empty_at h a)) gs in
      update_self (set_dict_group (Some g)) ≫= fun _ => mret g
  end.

(** [locked]: ['group' in self.__dict__] *)
Definition locked (d : t) : bool := bool_decide (is_Some (dict_group d)).

(** [compat] *)
Definition compat : M bool :=
  d ← get_self;
  if locked d then
    (* if group has already choosed *)
    g ← group;
    match g with
    | Some a => h ← get_store; mret (negb (empty_at h a))
    | None => raise (AttributeError "'NoneType' object has no attribute 'empty'")
    end
  else
    (* if group hasn't choosed *)
    gs ← groups;
    h ← get_store;
    mret (existsb (fun a => negb (empty_at h a)) gs).

(** *** Methods *)

(** [unlock]: [del self.__dict__['group']] *)
Definition unlock : M unit :=
  d ← get_self;
  if locked d then update_self (set_dict_group None)
  else raise (KeyError "group").

(** The checks of [merge] on two git based nodes. *)
Definition check_links (l1 l2 : option Link) : Res unit :=
  match l1, l2 with
  | Some (GitRepo _ server1 rev1), Some (GitRepo _ server2 rev2) =>
      if rev_truthy rev1 && rev_truthy rev2 && negb (rev_eqb rev1 rev2)
      then Raise (MergeError "links point to different revisions")
      else if negb (String.eqb server1 server2)
      then Raise (MergeError "links point to different servers")
      else Ok tt
  | _, _ => Ok tt
  end.

Definition link_rev (l : option Link) : option string :=
  match l with
  | Some (GitRepo _ _ rev) => rev
  | _ => None
  end.

Definition lift {A} (r : Res A) : M A := fun w => (r, w).

(** [merge(dep)] *)
Definition merge (dep : t) : M unit :=
  (* some checks when we merge two git based dep *)
  d ← get_self;
  _ ← lift (check_links (link d) (link dep));
  (* prefer non-git repo *)
  _ ← (if is_GitRepo (link d) && negb (is_GitRepo (link dep))
            && negb (rev_truthy (link_rev (link d)))
            && negb (bool_decide (is_Some (dict_groups d)))
       then update_self (set_repo (repo dep))
       else mret tt);
  d ← get_self;
  _ ← (if negb (is_GitRepo (link d)) && is_GitRepo (link dep)
       then update_self (fun d => set_repo (repo dep) (set_link (link dep) d))
       else mret tt);
  d ← get_self;
  c ← lift (constraint_merge (constraint d) (constraint dep));
  _ ← update_self (set_constraint c);
  _ ← _actualize_groups true None;
  mret tt.

(** [unapply(name)] *)
Definition unapply (name : string) : M unit :=
  _ ← update_self (fun d => set_constraint (constraint_unapply name (constraint d)) d);
  _ ← _actualize_groups true None;
  d ← get_self;
  if locked d then unlock else mret tt.

(** A node as its constructor leaves it, in a world with no groups. *)
Definition fresh (d : t) : World := mkWorld d [] 0.

End Node.

Arguments t : clear implicits.
Arguments World : clear implicits.
Arguments M : clear implicits.
Arguments ConstraintArg : clear implicits.
Arguments Req : clear implicits.

End Dependency.

(** ** The methods, as functions of the world

    Closed descriptions of what the methods above compute; the lemmas of
    [RunFacts] prove that the methods agree with them. *)

Module Run.
Section Run.

Import Dependency.
Context {C Spec : Type} `{!ConstraintOps C Spec}.

(** The store after [group.releases] has been assigned on the objects at
    [gs], under the constraint [c]. *)
Definition refiltered (c : C) (gs : list addr) (h : list Group.t)
    : list Group.t :=
  foldl (fun h a => alter (refilter c) a h) h gs.

(** The releases that [all_releases] returns on [w], and the number of
    requests made once it has. *)
Definition listed (w : World C) : list Release * nat :=
  match dict_all_releases (self w) with
  | Some rs => (rs, requests w)
  | None =>
      (get_releases (repo (self w)) (requests w) (raw_name (self w)),
       S (requests w))
  end.

(** The same once the dependencies of every release are known. *)
Definition fetched (w : World C) : list Release * nat :=
  fetch_deps (repo (self w)) (snd (listed w)) (fst (listed w)).

(** The addresses of the groups that a first read of [groups] creates. *)
Definition new_addrs (w : World C) : list addr :=
  seq (length (store w)) (length (make_groups (fst (fetched w)))).

(** The world after a first read of [groups]. *)
Definition with_groups (w : World C) : World C :=
  mkWorld
    (set_dict_groups (Some (new_addrs w))
       (set_dict_all_releases (Some (fst (fetched w))) (self w)))
    (store w ++ map (refilter (constraint (self w)))
                    (make_groups (fst (fetched w))))
    (snd (fetched w)).

(** What reading [groups] returns, and the world it leaves. *)
Definition grouped (w : World C) : list addr * World C :=
  match dict_groups (self w) with
  | Some gs => (gs, w)
  | None => (new_addrs w, with_groups w)
  end.

(** The world after [_actualize_groups(force=True)]. *)
Definition actualized (w : World C) : World C :=
  let w1 := match dict_groups (self w) with
            | Some _ => w
            | None => with_groups w
            end in
  mkWorld (self w1)
          (refiltered (constraint (self w1))
                      (default [] (dict_groups (self w1))) (store w1))
          (requests w1).

(** The group that a first read of [group] selects. *)
Definition selected (w : World C) : option addr :=
  List.find (λ a, negb (empty_at (store (snd (grouped w))) a))
            (fst (grouped w)).

(** The node after the two source rules of [merge]. *)
Definition adopted (dep d : Dependency.t C) : Dependency.t C :=
  let d1 :=
    if is_GitRepo (link d) && negb (is_GitRepo (link dep))
       && negb (rev_truthy (link_rev (link d)))
       && negb (bool_decide (is_Some (dict_groups d)))
    then set_repo (repo dep) d else d in
  if negb (is_GitRepo (link d1)) && is_GitRepo (link dep)
  then set_repo (repo dep) (set_link (link dep) d1) else d1.

(** The group objects at the addresses [gs]. *)
Definition deref (h : list Group.t) (gs : list addr) : list Group.t :=
  omap (λ a, h !! a) gs.

(** The group objects that reading [groups] on [w] returns. *)
Definition groups_objects (w : World C) : list Group.t :=
  match groups w with
  | (Ok gs, w') => deref (store w') gs
  | (Raise _, _) => []
  end.

End Run.
End Run.

(** ** A constraint over version ranges *)

(** Modelled from the spec: the [Constraint] class is not part of this
    module.  Section 3 and 4.1: an ordered mapping from source to
    version-range expression, with a sentinel for version-control
    constraints that are no range; [filter] keeps the releases whose version
    satisfies every range; [merge] unions the mappings and fails with a
    [MergeError] when one source contributes two ranges that disagree;
    [unapply] removes the range of a source, if any. *)
Module RangeConstraint.

Inductive Op := Equal | NotEqual | GreaterEq | Greater | LessEq | Less.

Definition Clause : Type := Op * Version.

Inductive Specifier :=
  | Range (clauses : list Clause)
  | GitSpecifier.

Definition t : Type := list (string * Specifier).

Global Instance Op_eq_dec : EqDecision Op.
Proof. solve_decision. Defined.
Global Instance Specifier_eq_dec : EqDecision Specifier.
Proof. solve_decision. Defined.

Definition clause_accepts (c : Clause) (v : Version) : bool :=
  let cmp := version_compare v (snd c) in
  match fst c, cmp with
  | Equal, Eq => true
  | NotEqual, (Lt | Gt) => true
  | GreaterEq, (Eq | Gt) => true
  | Greater, Gt => true
  | LessEq, (Eq | Lt) => true
  | Less, Lt => true
  | _, _ => false
  end.

Definition accepts (sp : Specifier) (v : Version) : bool :=
  match sp with
  | Range cs => forallb (fun c => clause_accepts c v) cs
  | GitSpecifier => true
  end.

Fixpoint set_spec (src : string) (sp : Specifier) (c : t) : t :=
  match c with
  | [] => [(src, sp)]
  | (s, sp') :: c' =>
      if String.eqb s src then (s, sp) :: c' else (s, sp') :: set_spec src sp c'
  end.

Fixpoint get_spec (src : string) (c : t) : option Specifier :=
  match c with
  | [] => None
  | (s, sp) :: c' => if String.eqb s src then Some sp else get_spec src c'
  end.

Definition make (src : string) (cs : list Clause) : t := [(src, Range cs)].

Fixpoint merge (c other : t) : Res t :=
  match other with
  | [] => Ok c
  | (s, sp) :: other' =>
      match get_spec s c with
      | Some sp' =>
          if bool_decide (sp' = sp) then merge c other'
          else Raise (MergeError "conflicting constraints")
      | None => merge (set_spec s sp c) other'
      end
  end.

Definition unapply (src : string) (c : t) : t :=
  List.filter (fun e => negb (String.eqb (fst e) src)) c.

Definition filter (c : t) (rs : list Release) : list Release :=
  List.filter
    (fun r => forallb (fun e => accepts (snd e) (rel_version r)) c) rs.

Global Instance ops : ConstraintOps t (list Clause) := {|
  Constraint := make;
  set_git_specifier := fun src c => set_spec src GitSpecifier c;
  constraint_merge := merge;
  constraint_unapply := unapply;
  constraint_filter := filter;
|}.

End RangeConstraint.

(** ** What the specification says of [rex_hash] and of error messages *)

(** A string of exactly seven lowercase hexadecimal digits. *)
Definition seven_lowercase_hex (s : string) : bool :=
  (String.length s =? 7)%nat &&
  forallb (λ c, existsb (Ascii.eqb c) (list_ascii_of_string "0123456789abcdef"))
          (list_ascii_of_string s).

(** A message names both revisions. *)
Definition names_both (msg rev1 rev2 : string) : bool :=
  Str.contains rev1 msg && Str.contains rev2 msg.

(** ** Scenarios *)

Module Scenario.

Import RangeConstraint.

Abbreviation Node := (Dependency.t RangeConstraint.t).
Abbreviation World := (Dependency.World RangeConstraint.t).

Definition req (name : string) : Requirement := mkRequirement name "".

Definition release (v : Version) : Release := mkRelease "pkgA" v None.

(** A registry with the releases 1.0 (no dependencies), 1.5 and 1.9 (both
    depend on pkgB) and 2.0 (depends on pkgB and pkgC). *)
Definition registry : Repo := {|
  get_releases := λ _ _,
    [release [1; 0]; release [1; 5]; release [1; 9]; release [2; 0]];
  get_dependencies := λ _ _ v,
    if bool_decide (v = [1; 0]) then []
    else if bool_decide (v = [2; 0]) then [req "pkgB"; req "pkgC"]
    else [req "pkgB"];
|}.

(** A registry that offers release 2.0 only. *)
Definition registry_2_0 : Repo := {|
  get_releases := λ _ _, [release [2; 0]];
  get_dependencies := λ _ _ _, [];
|}.

(** A registry that lists one dependency twice in release 1.1. *)
Definition registry_twice : Repo := {|
  get_releases := λ _ _, [release [1; 0]; release [1; 1]];
  get_dependencies := λ _ _ v,
    if bool_decide (v = [1; 0]) then [req "pkgB"]
    else [req "pkgB"; req "pkgB"];
|}.

(** A registry whose answer changes: release 1.0 at the first request,
    release 3.0 after it. *)
Definition registry_changing : Repo := {|
  get_releases := λ n _,
    match n with 0 => [release [1; 0]] | _ => [release [3; 0]] end;
  get_dependencies := λ _ _ _, [];
|}.

(** A checkout, which has the one release of its working tree. *)
Definition checkout : Repo := {|
  get_releases := λ _ _, [release [0]];
  get_dependencies := λ _ _ _, [];
|}.

Definition url_unpinned : string := "git+https://git.example.org/pkgA.git".
Definition url_abc123 : string := "git+https://git.example.org/pkgA.git@abc123".
Definition url_def456 : string := "git+https://git.example.org/pkgA.git@def456".
Definition url_archive : string := "https://files.example.org/requests.tar.gz".

(** A [parse_link] that knows the four URLs above. *)
Definition parse_link (url : option string) : option Link :=
  match url with
  | None => None
  | Some u =>
      if String.eqb u url_unpinned
      then Some (GitRepo "pkgA" "git.example.org" None)
      else if String.eqb u url_abc123
      then Some (GitRepo "pkgA" "git.example.org" (Some "abc123"))
      else if String.eqb u url_def456
      then Some (GitRepo "pkgA" "git.example.org" (Some "def456"))
      else if String.eqb u url_archive
      then Some (OtherLink "requests")
      else None
  end.

(** A [get_repo] that gives a checkout for a git link and the registry for
    the rest. *)
Definition get_repo (l : option Link) : Repo :=
  if is_GitRepo l then checkout else registry.

Definition from_params := Dependency.from_params (C := RangeConstraint.t)
  parse_link get_repo.

(** [>=1.0,<2.0], [>=1.5] and [==1.0]. *)
Definition range_1_2 : list Clause := [(GreaterEq, [1; 0]); (Less, [2; 0])].
Definition range_from_1_5 : list Clause := [(GreaterEq, [1; 5])].
Definition range_only_1_0 : list Clause := [(Equal, [1; 0])].

Definition node (name : string) (c : RangeConstraint.t) (rp : Repo)
    (l : option Link) : Node :=
  Dependency.mk name c rp l false [] None None None None.

(** pkgA with range [>=1.0,<2.0], required by the root project. *)
Definition pkgA : Node := node "pkgA" (make "root" range_1_2) registry None.

(** pkgA with range [>=1.5], required by a library. *)
Definition pkgA_lib : Node :=
  node "pkgA" (make "lib" range_from_1_5) registry None.

(** pkgA with range [==1.0], against the registry that has 2.0 only. *)
Definition pkgA_only_1_0 : Node :=
  node "pkgA" (make "root" range_only_1_0) registry_2_0 None.

(** pkgA without a range, against the registry whose answer changes. *)
Definition pkgA_changing : Node :=
  node "pkgA" (make "root" []) registry_changing None.

(** pkgA against the registry that lists a dependency twice. *)
Definition pkgA_twice : Node := node "pkgA" (make "root" []) registry_twice None.

(** pkgA from a git link: without a revision, and pinned to two. *)
Definition git_constraint : RangeConstraint.t :=
  set_spec "root" GitSpecifier (make "root" []).

Definition pkgA_git : Node :=
  node "pkgA" git_constraint checkout (parse_link (Some url_unpinned)).
Definition pkgA_abc123 : Node :=
  node "pkgA" git_constraint checkout (parse_link (Some url_abc123)).
Definition pkgA_def456 : Node :=
  node "pkgA" git_constraint checkout (parse_link (Some url_def456)).

(** The registry above, listing its four releases in another order. *)
Definition registry_in (order : list Release) : Repo := {|
  get_releases := λ _ _, order;
  get_dependencies := get_dependencies registry;
|}.

Definition pkgA_in (order : list Release) : Node :=
  node "pkgA" (make "root" range_1_2) (registry_in order) None.

(** Three groups, of which [group] selects number 1, and this one has the
    releases 1.5 and 1.9. *)
Definition three_groups_second_selected (d : Node) : bool :=
  match Dependency.group (Dependency.fresh d) with
  | (Ok (Some a), w) =>
      bool_decide (Dependency.dict_groups (Dependency.self w) = Some [0; 1; 2])
      && bool_decide (Group.number <$> Dependency.store w !! a = Some 1)
      && bool_decide
           ((map rel_version ∘ Group.all_releases) <$> Dependency.store w !! a
            ∈ [Some [[1; 5]; [1; 9]]; Some [[1; 9]; [1; 5]]])
  | _ => false
  end.

(** What a group looks like: its number, the versions of its members and
    the versions that pass the constraint. *)
Definition summary (g : Group.t) : nat * list Version * list Version :=
  (Group.number g, map rel_version (Group.all_releases g),
   map rel_version (Group.releases g)).

(** The fingerprints of the members of a group. *)
Definition fingerprints (g : Group.t) : list string :=
  map fingerprint (Group.all_releases g).

(** The node for pkgA once [group] has been read. *)
Definition pkgA_locked : World := snd (Dependency.group (Dependency.fresh pkgA)).

(** The node for the unpinned checkout once [groups] has been read. *)
Definition pkgA_git_grouped : World :=
  snd (Dependency.groups (Dependency.fresh pkgA_git)).

(** The two releases of [registry_twice], with their dependencies. *)
Definition release_1_0 : Release :=
  mkRelease "pkgA" [1; 0] (Some [req "pkgB"]).
Definition release_1_1 : Release :=
  mkRelease "pkgA" [1; 1] (Some [req "pkgB"; req "pkgB"]).

End Scenario.

(** ** Notions used to state what the node keeps *)

Module Notions.
Section Notions.
Import Dependency Run.
Context {C Spec : Type} `{!ConstraintOps C Spec}.

(** The number of releases whose dependencies are not known. *)
Definition unresolved (rs : list Release) : nat :=
  length (List.filter (λ r, bool_decide (rel_dependencies r = None)) rs).

(** Every cached group shows the releases that pass the constraint of the
    node. *)
Definition actual (w : World C) : Prop :=
  ∀ gs (a : nat) g,
    dict_groups (self w) = Some gs → a ∈ gs → store w !! a = Some g →
    Group.releases g =
    constraint_filter (constraint (self w)) (Group.all_releases g).

(** [group.empty] of every object at the addresses [gs]. *)
Definition all_empty (h : list Group.t) (gs : list addr) : Prop :=
  Forall (λ a, empty_at h a = true) gs.

End Notions.
End Notions.

(** ** Data locations ([dephell/config/app_dirs.py]) *)

Module AppDirs.
Section AppDirs.

(** Paths and [path / name] are those of [pathlib]. *)
Context {Path : Type}.
Variable joinpath : Path -> string -> Path.

Local Notation "p // name" := (joinpath p name) (at level 40, left associativity).

(** What the two functions read of the machine when they are called: the
    constant [IS_WINDOWS], [os.environ] (each value as a path),
    [Path.exists], [Path.home()] and [appdirs.user_data_dir]. *)
Record Env := mkEnv {
  IS_WINDOWS : bool;
  environ : string -> option Path;
  path_exists : Path -> bool;
  home : Path;
  user_data_dir : string -> Path;
}.

(** The body of [get_data_dir]. *)
Definition data_dir (e : Env) (app : string) : Path :=
  (* unix and Windows from environment *)
  let envvar := if IS_WINDOWS e then "LOCALAPPDATA" else "XDG_DATA_HOME" in
  let from_env :=
    match environ e envvar with
    | Some path => if path_exists e path then Some (path // app) else None
    | None => None
    end in
  match from_env with
  | Some result => result
  | None =>
      (* unix default *)
      let path := home e // ".local" // "share" in
      if path_exists e path then path // app
      else
        (* mac os x *)
        let path := home e // "Library" // "Application Support" in
        if path_exists e path then path // app
        else user_data_dir e app
  end.

(** How a function is called: the key under which [lru_cache] stores the
    result.  A positional and a keyword argument give different keys. *)
Inductive Call :=
| NoArgs
| Positional (app : string)
| Keyword (app : string).

Global Instance Call_eq_dec : EqDecision Call.
Proof. solve_decision. Defined.

(** [app: str = 'dephell'] *)
Definition app_of (c : Call) : string :=
  match c with
  | NoArgs => "dephell"
  | Positional app => app
  | Keyword app => app
  end.

(** The store of an [lru_cache]: the most recently used entry first. *)
Definition Cache : Type := list (Call * Path).

Fixpoint cache_find (c : Call) (k : Cache) : option Path :=
  match k with
  | [] => None
  | (c', p) :: k' => if bool_decide (c' = c) then Some p else cache_find c k'
  end.

Fixpoint cache_remove (c : Call) (k : Cache) : Cache :=
  match k with
  | [] => []
  | (c', p) :: k' =>
      if bool_decide (c' = c) then k' else (c', p) :: cache_remove c k'
  end.

(** A hit makes the entry the most recent one. *)
Definition cache_touch (c : Call) (p : Path) (k : Cache) : Cache :=
  (c, p) :: cache_remove c k.

(** A miss stores the result and drops the least recently used entry when
    the cache is full. *)
Definition cache_store (maxsize : nat) (c : Call) (p : Path) (k : Cache)
    : Cache :=
  take maxsize ((c, p) :: k).

(** The caches of the two functions. *)
Record Caches := mkCaches {
  data_cache : Cache;
  cache_cache : Cache;
}.

(** [get_data_dir], under [lru_cache(maxsize=2)]. *)
Definition get_data_dir (c : Call) (e : Env) (k : Caches) : Path * Caches :=
  match cache_find c (data_cache k) with
  | Some p => (p, mkCaches (cache_touch c p (data_cache k)) (cache_cache k))
  | None =>
      let p := data_dir e (app_of c) in
      (p, mkCaches (cache_store 2 c p (data_cache k)) (cache_cache k))
  end.

(** The body of [get_cache_dir], which calls [get_data_dir(app=app)] when
    no candidate exists. *)
Definition cache_dir (e : Env) (app : string) (k : Caches) : Path * Caches :=
  (* unix and Windows from environment *)
  let envvar := if IS_WINDOWS e then "TEMP" else "XDG_CACHE_HOME" in
  let from_env :=
    match environ e envvar with
    | Some path => if path_exists e path then Some (path // app) else None
    | None => None
    end in
  match from_env with
  | Some result => (result, k)
  | None =>
      (* unix default *)
      let path := home e // ".cache" in
      if path_exists e path then (path // app, k)
      else
        (* mac os x *)
        let path := home e // "Library" // "Caches" in
        if path_exists e path then (path // app, k)
        else
          let '(data, k') := get_data_dir (Keyword app) e k in
          (data // "cache", k')
  end.

(** [get_cache_dir], under [lru_cache(maxsize=2)]. *)
Definition get_cache_dir (c : Call) (e : Env) (k : Caches) : Path * Caches :=
  match cache_find c (cache_cache k) with
  | Some p => (p, mkCaches (data_cache k) (cache_touch c p (cache_cache k)))
  | None =>
      let '(p, k') := cache_dir e (app_of c) k in
      (p, mkCaches (data_cache k') (cache_store 2 c p (cache_cache k')))
  end.

(** None of the directories that [get_cache_dir] tries exists. *)
Definition no_cache_candidate (e : Env) : Prop :=
  match environ e (if IS_WINDOWS e then "TEMP" else "XDG_CACHE_HOME") with
  | Some path => path_exists e path = false
  | None => True
  end ∧
  path_exists e (home e // ".cache") = false ∧
  path_exists e (home e // "Library" // "Caches") = false.

(** The caches of a process that has called neither function. *)
Definition no_caches : Caches := mkCaches [] [].

End AppDirs.

Arguments Env : clear implicits.
Arguments Cache : clear implicits.
Arguments Caches : clear implicits.

End AppDirs.

(** ** The setup.py converter ([dephell/converters/setuppy.py])

    A [str] is a string of characters below 256. *)

Module SetupPy.

(** [c.isspace()] for a character below 256. *)
Definition isspace (c : ascii) : bool :=
  let n := nat_of_ascii c in
  (((9 <=? n) && (n <=? 13)) || ((28 <=? n) && (n <=? 32))
   || (n =? 133) || (n =? 160))%nat.

Fixpoint lstrip_chars (l : list ascii) : list ascii :=
  match l with
  | [] => []
  | c :: l' => if isspace c then lstrip_chars l' else l
  end.

Definition strip_chars (l : list ascii) : list ascii :=
  rev (lstrip_chars (rev (lstrip_chars l))).

(** [s.strip()] *)
Definition strip (s : string) : string :=
  string_of_list_ascii (strip_chars (list_ascii_of_string s)).

(** The attributes that [_get] and [_get_list] read with [getattr]: those of
    [msg.metadata] and those of [msg] itself.  [None] stands for an
    attribute that is missing or is [None]. *)
Record Distribution := mkDistribution {
  metadata : string -> option string;
  attribute : string -> option string;
  list_attribute : string -> option (list string);
}.

(** [not value] for an attribute read with a [None] default. *)
Definition falsy (value : option string) : bool :=
  match value with
  | None => true
  | Some s => negb (Str.truthy s)
  end.

(** [_get(msg, name)] *)
Definition _get (msg : Distribution) (name : string) : string :=
  let value := metadata msg name in
  let value := if falsy value then attribute msg name else value in
  match value with
  | None => ""
  | Some v =>
      if negb (Str.truthy v) then ""
      else if String.eqb v "UNKNOWN" then ""
      else strip v
  end.

(** [_get_list(msg, name)] *)
Definition _get_list (msg : Distribution) (name : string) : list string :=
  match list_attribute msg name with
  | None | Some [] => []
  | Some values =>
      List.filter
        (λ value, negb (String.eqb value "UNKNOWN") && Str.truthy (strip value))
        values
  end.

(** [can_parse(path, content)], given [path.name]. *)
Definition can_parse (path_name : string) (content : option string) : bool :=
  if String.eqb path_name "setup.py" then true
  else match content with
       | None => false
       | Some content =>
           if negb (Str.truthy content) then false
           else if negb (Str.contains "setuptools" content)
                   && negb (Str.contains "distutils" content)
           then false
           else Str.contains "setup(" content
       end.

(** A requirement as [_format_req] and [dumps] read it; [envs] lists the
    environments in the order in which the loop of [dumps] meets them. *)
Record Requirement := mkRequirement {
  name : string;
  extras : list string;
  version : string;
  markers : string;
  envs : list string;
}.

(** [_format_req(req)] *)
Definition _format_req (req : Requirement) : string :=
  let line := name req in
  let line :=
    match extras req with
    | [] => line
    | _ => (line ++ "[" ++ Str.join "," (extras req) ++ "]")%string
    end in
  let line :=
    if Str.truthy (version req) then (line ++ version req)%string else line in
  let line :=
    if Str.truthy (markers req) then (line ++ "; " ++ markers req)%string
    else line in
  line.

(** [d[key].append(value)] on a [defaultdict(list)]. *)
Fixpoint dict_append (key value : string) (d : list (string * list string))
    : list (string * list string) :=
  match d with
  | [] => [(key, [value])]
  | (k, vs) :: d' =>
      if String.eqb k key then (k, vs ++ [value]) :: d'
      else (k, vs) :: dict_append key value d'
  end.

(** A [defaultdict(list)] filled from pairs, in their order. *)
Definition collect (pairs : list (string * string))
    : list (string * list string) :=
  foldl (λ d kv, dict_append (fst kv) (snd kv) d) [] pairs.

(** [d[key]] and [key in d] on a dict. *)
Fixpoint dict_get {V} (key : string) (d : list (string * V)) : option V :=
  match d with
  | [] => None
  | (k, v) :: d' => if String.eqb k key then Some v else dict_get key d'
  end.

Record Author := mkAuthor {
  author_name : string;
  author_mail : string;
}.

Record EntryPoint := mkEntryPoint {
  ep_group : string;
  ep_str : string;       (* [str(entrypoint)] *)
}.

Record DataRule := mkDataRule {
  rule_module : string;
  rule_relative : string;
}.

(** The attributes of the project that [dumps] reads.  [python_given] is the
    truth value of [project.python] and [python_str] its [str]; the
    packages are given by their [str]; [readme_code] is
    [project.readme.to_rst().as_code()], and [None] when [project.readme]
    is [None]. *)
Record Project := mkProject {
  raw_name : string;
  project_version : string;
  description : string;
  python_given : bool;
  python_str : string;
  links : list (string * string);
  authors : list Author;
  license : string;
  keywords : list string;
  classifiers : list string;
  platforms : list string;
  entrypoints : list EntryPoint;
  packages : list string;
  package_data : list DataRule;
  readme_code : option string;
}.

(** The values of the keyword arguments of [setup]. *)
Inductive Value :=
| VStr (s : string)
| VList (l : list string)
| VDict (d : list (string * string))
| VDictOfLists (d : list (string * list string)).

Definition is_nil {A} (l : list A) : bool :=
  match l with [] => true | _ => false end.

(** The pairs [(env, formatted)] in the order in which the loops over
    [reqs] and [req.envs] meet them. *)
Definition extras_pairs (reqs : list Requirement) : list (string * string) :=
  flat_map (λ req, map (λ env, (env, _format_req req)) (envs req)) reqs.

(** The list [content] that [dumps] builds: the keyword arguments that
    follow [long_description] in the template, each with its value.
    [dumps] below renders it. *)
Definition dumps_content (reqs : list Requirement) (project : Project)
    : list (string * Value) :=
  [("name", VStr (raw_name project));
   ("version", VStr (project_version project))]
  ++ (if Str.truthy (description project)
      then [("description", VStr (description project))] else [])
  ++ (if python_given project
      then [("python_requires", VStr (python_str project))] else [])
  (* links *)
  ++ flat_map
       (λ field : string * string,
          match dict_get (fst field) (links project) with
          | Some link => [(snd field, VStr link)]
          | None => []
          end)
       [("home", "url"); ("download", "download_url")]
  ++ (if is_nil (links project) then []
      else [("project_urls", VDict (links project))])
  (* authors *)
  ++ match authors project with
     | author :: _ =>
         ("author", VStr (author_name author))
         :: (if Str.truthy (author_mail author)
             then [("author_email", VStr (author_mail author))] else [])
     | [] => []
     end
  ++ match authors project with
     | _ :: author :: _ =>
         ("maintainer", VStr (author_name author))
         :: (if Str.truthy (author_mail author)
             then [("maintainer_email", VStr (author_mail author))] else [])
     | _ => []
     end
  ++ (if Str.truthy (license project)
      then [("license", VStr (license project))] else [])
  ++ (if is_nil (keywords project) then []
      else [("keywords", VStr (Str.join " " (keywords project)))])
  ++ (if is_nil (classifiers project) then []
      else [("classifiers", VList (classifiers project))])
  ++ (if is_nil (platforms project) then []
      else [("platforms", VList (platforms project))])
  ++ (if is_nil (entrypoints project) then []
      else [("entry_points",
             VDictOfLists
               (collect (map (λ ep, (ep_group ep, ep_str ep))
                             (entrypoints project))))])
  (* packages, package_data *)
  ++ [("packages", VList (Str.sorted (packages project)));
      ("package_data",
       VDictOfLists
         (map (λ kv : string * list string, (fst kv, Str.sorted (snd kv)))
              (collect (map (λ rule, (rule_module rule, rule_relative rule))
                            (package_data project)))));
      ("install_requires", VList (map _format_req reqs))]
  ++ (if is_nil (collect (extras_pairs reqs)) then []
      else [("extras_require", VDictOfLists (collect (extras_pairs reqs)))]).

(** A line break. *)
Definition nl : string := String "010"%char EmptyString.

(** [TEMPLATE.format(kwargs=kwargs, readme=readme)] *)
Definition TEMPLATE (readme kwargs : string) : string :=
  nl
  ++ "# -*- coding: utf-8 -*-" ++ nl
  ++ nl
  ++ "# DO NOT EDIT THIS FILE!" ++ nl
  ++ "# This file has been autogenerated by dephell <3" ++ nl
  ++ "# https://github.com/orsinium/dephell" ++ nl
  ++ nl
  ++ "try:" ++ nl
  ++ "    from setuptools import setup" ++ nl
  ++ "except ImportError:" ++ nl
  ++ "    from distutils.core import setup" ++ nl
  ++ nl
  ++ readme ++ nl
  ++ nl
  ++ "setup(" ++ nl
  ++ "    long_description=readme," ++ nl
  ++ "    " ++ kwargs ++ "," ++ nl
  ++ ")" ++ nl.

(** The code that binds [readme]. *)
Definition readme_source (project : Project) : string :=
  match readme_code project with
  | Some code => code
  | None => "readme = ''"
  end.

Section Dumps.

(** [repr] of a value and the [FormatCode] of yapf, with the Google style,
    are not part of this module. *)
Variable repr : Value -> string.
Variable FormatCode : string -> string.

(** ['{}={!r}'.format(name, value)] *)
Definition format_item (item : string * Value) : string :=
  fst item ++ "=" ++ repr (snd item).

(** [dumps(reqs, project)] *)
Definition dumps (reqs : list Requirement) (project : Project) : string :=
  let content := dumps_content reqs project in
  let readme := readme_source project in
  let content := Str.join ("," ++ nl ++ "    ") (map format_item content) in
  let content := TEMPLATE readme content in
  FormatCode content.

End Dumps.

(** *** Notions used to state what the converter does *)

(** What the template writes before the call of [setup]. *)
Definition preamble (readme : string) : string :=
  nl
  ++ "# -*- coding: utf-8 -*-" ++ nl
  ++ nl
  ++ "# DO NOT EDIT THIS FILE!" ++ nl
  ++ "# This file has been autogenerated by dephell <3" ++ nl
  ++ "# https://github.com/orsinium/dephell" ++ nl
  ++ nl
  ++ "try:" ++ nl
  ++ "    from setuptools import setup" ++ nl
  ++ "except ImportError:" ++ nl
  ++ "    from distutils.core import setup" ++ nl
  ++ nl
  ++ readme ++ nl
  ++ nl.

(** A call of [setup] with the given arguments, one on a line, as the
    template lays it out. *)
Definition setup_call (arguments : list string) : string :=
  "setup(" ++ nl
  ++ "    " ++ Str.join ("," ++ nl ++ "    ") arguments ++ "," ++ nl
  ++ ")" ++ nl.

(** A list of characters that does not start with white space. *)
Definition starts_clean (l : list ascii) : Prop :=
  match l with
  | [] => True
  | c :: _ => isspace c = false
  end.

(** A value that [_get_list] keeps. *)
Definition kept (value : string) : bool :=
  negb (String.eqb value "UNKNOWN") && Str.truthy (strip value).

(** The keyword arguments that [dumps] can write, in its order. *)
Definition setup_keywords : list string :=
  ["name"; "version"; "description"; "python_requires"; "url";
   "download_url"; "project_urls"; "author"; "author_email"; "maintainer";
   "maintainer_email"; "license"; "keywords"; "classifiers"; "platforms";
   "entry_points"; "packages"; "package_data"; "install_requires";
   "extras_require"].

(** The values collected under a key, in their order. *)
Definition values_of (key : string) (pairs : list (string * string))
    : list string :=
  map snd (List.filter (λ kv, String.eqb (fst kv) key) pairs).

(** The requirements that carry an environment. *)
Definition with_env (env : string) (reqs : list Requirement)
    : list Requirement :=
  List.filter (λ req, bool_decide (env ∈ envs req)) reqs.

(** [collect], started from a dict that is already filled. *)
Definition collect_from (d : list (string * list string))
    (pairs : list (string * string)) : list (string * list string) :=
  foldl (λ d kv, dict_append (fst kv) (snd kv) d) d pairs.

End SetupPy.

(** ** Further scenarios *)

Module Cases.

Import RangeConstraint Scenario.

(** Group number 1 of pkgA once [group] has been read: the releases 1.5 and
    1.9, which both pass [>=1.0,<2.0]. *)
Definition release_1_5 : Release := mkRelease "pkgA" [1; 5] (Some [req "pkgB"]).
Definition release_1_9 : Release := mkRelease "pkgA" [1; 9] (Some [req "pkgB"]).
Definition group_1 : Group.t :=
  Group.mk 1 [release_1_5; release_1_9] [release_1_5; release_1_9].

(** pkgA from a git link on another server: without a revision, and pinned
    to def456. *)
Definition pkgA_mirror : Node :=
  node "pkgA" git_constraint checkout
       (Some (GitRepo "pkgA" "mirror.example.org" None)).
Definition pkgA_mirror_def456 : Node :=
  node "pkgA" git_constraint checkout
       (Some (GitRepo "pkgA" "mirror.example.org" (Some "def456"))).

(** A requirement as pipenv names it, with the URL of the checkout. *)
Definition req_hash : Dependency.Req (list Clause) :=
  Dependency.mkReq "abcdef1" [] (Some url_unpinned) [] None.

Definition from_requirement :=
  Dependency.from_requirement (C := RangeConstraint.t) parse_link get_repo.

(** *** Machines *)

(** Paths as the list of their parts. *)
Definition Path : Type := list string.
Definition joinpath (p : Path) (name : string) : Path := p ++ [name].

(** A Linux machine where [~/.local/share] exists and nothing else of what
    the two functions try. *)
Definition linux : AppDirs.Env Path := {|
  AppDirs.IS_WINDOWS := false;
  AppDirs.environ := λ _, None;
  AppDirs.path_exists := λ p, bool_decide (p = ["home"; "user"; ".local"; "share"]);
  AppDirs.home := ["home"; "user"];
  AppDirs.user_data_dir := λ app, ["home"; "user"; ".appdirs"; app];
|}.

(** The same machine once [~/.local/share] is gone. *)
Definition bare : AppDirs.Env Path := {|
  AppDirs.IS_WINDOWS := false;
  AppDirs.environ := λ _, None;
  AppDirs.path_exists := λ _, false;
  AppDirs.home := ["home"; "user"];
  AppDirs.user_data_dir := λ app, ["home"; "user"; ".appdirs"; app];
|}.

(** *** Projects *)

(** A distribution whose metadata says UNKNOWN for the licence, while the
    distribution itself has one. *)
Definition dist : SetupPy.Distribution := {|
  SetupPy.metadata := λ name,
    if String.eqb name "license" then Some "UNKNOWN"
    else if String.eqb name "name" then Some " pkgA " else None;
  SetupPy.attribute := λ name,
    if String.eqb name "license" then Some "MIT"
    else if String.eqb name "url" then Some "https://example.org " else None;
  SetupPy.list_attribute := λ name,
    if String.eqb name "keywords" then Some ["a"; "UNKNOWN"; "  "; " b"]
    else None;
|}.

(** The same distribution with the keywords that [_get_list] returned. *)
Definition dist_again : SetupPy.Distribution := {|
  SetupPy.metadata := SetupPy.metadata dist;
  SetupPy.attribute := SetupPy.attribute dist;
  SetupPy.list_attribute := λ name,
    if String.eqb name "keywords" then Some ["a"; " b"] else None;
|}.

(** Two requirements: one for the environments dev and test, one for dev. *)
Definition reqs : list SetupPy.Requirement :=
  [SetupPy.mkRequirement "pytest" [] ">=3.0" "" ["dev"; "test"];
   SetupPy.mkRequirement "flake8" ["flakes"] "" "python_version>='3.5'" ["dev"]].

(** A project with two entry points in one group. *)
Definition project : SetupPy.Project := {|
  SetupPy.raw_name := "pkgA";
  SetupPy.project_version := "1.0";
  SetupPy.description := "";
  SetupPy.python_given := false;
  SetupPy.python_str := "";
  SetupPy.links := [];
  SetupPy.authors := [];
  SetupPy.license := "MIT";
  SetupPy.keywords := [];
  SetupPy.classifiers := [];
  SetupPy.platforms := [];
  SetupPy.entrypoints :=
    [SetupPy.mkEntryPoint "console_scripts" "a = pkgA:main";
     SetupPy.mkEntryPoint "console_scripts" "b = pkgA:other"];
  SetupPy.packages := ["pkgA"];
  SetupPy.package_data := [];
  SetupPy.readme_code := None;
|}.

End Cases.

(** * Facts *)

Module StrFacts.

Lemma ascii_compare_cases (a b : ascii) :
  match Ascii.compare a b with
  | Eq => a = b
  | Lt => (N_of_ascii a < N_of_ascii b)%N
  | Gt => (N_of_ascii b < N_of_ascii a)%N
  end.
Proof.
  destruct (Ascii.compare a b) eqn:E.
  - by apply Ascii.compare_eq_iff.
  - by apply N.compare_lt_iff.
  - by apply N.compare_gt_iff.
Qed.

Lemma ascii_compare_refl (a : ascii) : Ascii.compare a a = Eq.
Proof. apply N.compare_refl. Qed.

Lemma str_compare_refl (s : string) : String.compare s s = Eq.
Proof. induction s as [|a s IH]; simpl; [done|]. by rewrite ascii_compare_refl. Qed.

Lemma str_leb_refl (s : string) : Str.leb s s = true.
Proof. unfold Str.leb, String.leb. by rewrite str_compare_refl. Qed.

Lemma str_leb_trans (a b c : string) :
  Str.leb a b = true → Str.leb b c = true → Str.leb a c = true.
Proof.
  unfold Str.leb, String.leb. revert b c.
  induction a as [|x a IH]; intros [|y b] [|z c]; simpl; try done.
  pose proof (ascii_compare_cases x y) as Hxy.
  pose proof (ascii_compare_cases y z) as Hyz.
  pose proof (ascii_compare_cases x z) as Hxz.
  destruct (Ascii.compare x y) eqn:Exy; try done;
    destruct (Ascii.compare y z) eqn:Eyz; try done;
    destruct (Ascii.compare x z) eqn:Exz; subst; try done; try lia;
    rewrite ?ascii_compare_refl in *; try congruence.
  apply IH.
Qed.

Lemma str_leb_total (a b : string) : Str.leb a b = true ∨ Str.leb b a = true.
Proof. apply String.leb_total. Qed.

Lemma str_leb_antisym (a b : string) :
  Str.leb a b = true → Str.leb b a = true → a = b.
Proof. apply String.leb_antisym. Qed.

Lemma str_insert_comm (x y : string) (l : list string) :
  Str.insert x (Str.insert y l) = Str.insert y (Str.insert x l).
Proof.
  induction l as [|z l IH]; simpl.
  - destruct (Str.leb x y) eqn:Exy, (Str.leb y x) eqn:Eyx; try done.
    + by rewrite (str_leb_antisym x y).
    + destruct (str_leb_total x y); congruence.
  - destruct (Str.leb y z) eqn:Eyz, (Str.leb x z) eqn:Exz; simpl;
      rewrite ?Eyz, ?Exz; try done.
    + destruct (Str.leb x y) eqn:Exy, (Str.leb y x) eqn:Eyx; try done.
      * by rewrite (str_leb_antisym x y).
      * destruct (str_leb_total x y); congruence.
    + destruct (Str.leb x y) eqn:Exy; [|done].
      by rewrite (str_leb_trans x y z) in Exz.
    + destruct (Str.leb y x) eqn:Eyx; [|done].
      by rewrite (str_leb_trans y x z) in Eyz.
    + by rewrite IH.
Qed.

Lemma str_sorted_perm (l1 l2 : list string) :
  l1 ≡ₚ l2 → Str.sorted l1 = Str.sorted l2.
Proof.
  induction 1 as [|x l1 l2 _ IH|x y l|l1 l2 l3 _ IH1 _ IH2]; simpl.
  - done.
  - by rewrite IH.
  - apply str_insert_comm.
  - congruence.
Qed.

End StrFacts.

Module VersionFacts.

Lemma version_compare_refl (v : Version) : version_compare v v = Eq.
Proof. induction v as [|a v IH]; simpl; [done|]. by rewrite Nat.compare_refl. Qed.

Lemma version_compare_eq (v1 v2 : Version) : version_compare v1 v2 = Eq → v1 = v2.
Proof.
  revert v2. induction v1 as [|a v1 IH]; intros [|b v2]; simpl; try done.
  destruct (Nat.compare_spec a b); try done.
  intros E. subst. f_equal. by apply IH.
Qed.

Lemma version_compare_antisym (v1 v2 : Version) :
  version_compare v2 v1 = CompOpp (version_compare v1 v2).
Proof.
  revert v2. induction v1 as [|a v1 IH]; intros [|b v2]; simpl; try done.
  rewrite (Nat.compare_antisym a b).
  destruct (a ?= b)%nat; simpl; auto.
Qed.

Lemma version_compare_lt_trans (v1 v2 v3 : Version) :
  version_compare v1 v2 = Lt → version_compare v2 v3 = Lt →
  version_compare v1 v3 = Lt.
Proof.
  revert v2 v3.
  induction v1 as [|a v1 IH]; intros [|b v2] [|c v3]; simpl; try done.
  destruct (Nat.compare_spec a b), (Nat.compare_spec b c),
    (Nat.compare_spec a c); try done; try lia.
  apply IH.
Qed.

(** "Not older than" is transitive. *)
Lemma version_not_ltb_trans (v1 v2 v3 : Version) :
  version_ltb v1 v2 = false → version_ltb v2 v3 = false →
  version_ltb v1 v3 = false.
Proof.
  unfold version_ltb. intros H12 H23.
  destruct (version_compare v1 v3) eqn:E13; try done.
  destruct (version_compare v1 v2) eqn:E12; try done.
  - apply version_compare_eq in E12. subst. by rewrite E13 in H23.
  - assert (version_compare v2 v1 = Lt) as E21
      by (by rewrite version_compare_antisym, E12).
    by rewrite (version_compare_lt_trans _ _ _ E21 E13) in H23.
Qed.

End VersionFacts.

Module GroupingFacts.

Lemma elem_of_set_add (x r : Release) (s : list Release) :
  x ∈ set_add r s ↔ x = r ∨ x ∈ s.
Proof.
  unfold set_add. case_bool_decide as Hin.
  - split; [by right|]. by intros [->|].
  - rewrite elem_of_app, list_elem_of_singleton. tauto.
Qed.

Lemma set_add_not_nil (r : Release) (s : list Release) : set_add r s ≠ [].
Proof.
  intros E. assert (r ∈ set_add r s) as H by (apply elem_of_set_add; by left).
  rewrite E in H. by apply not_elem_of_nil in H.
Qed.

Lemma dict_add_keys (key : string) (r : Release) d :
  map fst (dict_add key r d) =
  if bool_decide (key ∈ map fst d) then map fst d else map fst d ++ [key].
Proof.
  induction d as [|[k s] d IH]; simpl.
  - done.
  - destruct (String.eqb_spec k key) as [->|Hne]; simpl.
    + rewrite bool_decide_eq_true_2; [done|]. apply list_elem_of_here.
    + rewrite IH. case_bool_decide as Hin.
      * rewrite bool_decide_eq_true_2; [done|]. by apply list_elem_of_further.
      * rewrite bool_decide_eq_false_2; [done|].
        rewrite elem_of_cons. intros [E|E]; [by subst|done].
Qed.

Lemma dict_add_members (key : string) (r : Release) d :
  fingerprint r = key →
  (∀ k s, (k, s) ∈ d → s ≠ [] ∧ ∀ x, x ∈ s → fingerprint x = k) →
  ∀ k s, (k, s) ∈ dict_add key r d →
         s ≠ [] ∧ ∀ x, x ∈ s → fingerprint x = k.
Proof.
  intros Hr. induction d as [|[k' s'] d IH]; simpl; intros Hd k s.
  - rewrite list_elem_of_singleton. intros [= -> ->].
    split; [apply set_add_not_nil|].
    intros x [->|Hx]%elem_of_set_add; [done|]. by apply not_elem_of_nil in Hx.
  - destruct (String.eqb_spec k' key) as [->|Hne].
    + rewrite elem_of_cons. intros [[= -> ->]|Hin].
      * split; [apply set_add_not_nil|].
        intros x [->|Hx]%elem_of_set_add; [done|].
        by apply (Hd key s'); [apply list_elem_of_here|].
      * apply Hd. by apply list_elem_of_further.
    + rewrite elem_of_cons. intros [[= -> ->]|Hin].
      * apply Hd. apply list_elem_of_here.
      * apply IH; [|done]. intros k0 s0 H0. apply Hd.
        by apply list_elem_of_further.
Qed.

Lemma dict_add_ok (key : string) (r : Release) d :
  fingerprint r = key → dict_ok d → dict_ok (dict_add key r d).
Proof.
  intros Hr [Hnd Hd]. split.
  - rewrite dict_add_keys. case_bool_decide as Hin; [done|].
    apply NoDup_app. split_and!; [done| |apply NoDup_singleton].
    intros x Hx ->%list_elem_of_singleton. done.
  - by apply dict_add_members.
Qed.

(** A release stays in the set of its key. *)
Lemma dict_add_mono (key : string) (r : Release) d k s x :
  (k, s) ∈ d → x ∈ s → ∃ s', (k, s') ∈ dict_add key r d ∧ x ∈ s'.
Proof.
  induction d as [|[k' s'] d IH]; simpl.
  - by intros ?%not_elem_of_nil.
  - intros Hin Hx. destruct (String.eqb_spec k' key) as [->|Hne].
    + apply elem_of_cons in Hin as [[= -> ->]|Hin].
      * exists (set_add r s'). split; [apply list_elem_of_here|].
        apply elem_of_set_add. by right.
      * exists s. split; [by apply list_elem_of_further|done].
    + apply elem_of_cons in Hin as [[= -> ->]|Hin].
      * exists s'. split; [apply list_elem_of_here|done].
      * destruct (IH Hin Hx) as (s0 & H0 & Hx0).
        exists s0. split; [by apply list_elem_of_further|done].
Qed.

Lemma dict_add_in (key : string) (r : Release) d :
  ∃ s, (key, s) ∈ dict_add key r d ∧ r ∈ s.
Proof.
  induction d as [|[k' s'] d IH]; simpl.
  - exists (set_add r []). split; [apply list_elem_of_here|].
    apply elem_of_set_add. by left.
  - destruct (String.eqb_spec k' key) as [->|Hne].
    + exists (set_add r s'). split; [apply list_elem_of_here|].
      apply elem_of_set_add. by left.
    + destruct IH as (s & Hs & Hr). exists s.
      split; [by apply list_elem_of_further|done].
Qed.

(** Only the release that is added is new. *)
Lemma dict_add_from (key : string) (r : Release) d k s x :
  (k, s) ∈ dict_add key r d → x ∈ s →
  x = r ∨ ∃ s0, (k, s0) ∈ d ∧ x ∈ s0.
Proof.
  induction d as [|[k' s'] d IH]; simpl.
  - rewrite list_elem_of_singleton. intros [= -> ->].
    intros [->|Hx]%elem_of_set_add; [by left|]. by apply not_elem_of_nil in Hx.
  - destruct (String.eqb_spec k' key) as [->|Hne].
    + rewrite elem_of_cons. intros [[= -> ->]|Hin].
      * intros [->|Hx]%elem_of_set_add; [by left|].
        right. exists s'. split; [apply list_elem_of_here|done].
      * intros Hx. right. exists s. split; [by apply list_elem_of_further|done].
    + rewrite elem_of_cons. intros [[= -> ->]|Hin] Hx.
      * right. exists s'. split; [apply list_elem_of_here|done].
      * destruct (IH Hin Hx) as [->|(s0 & H0 & Hx0)]; [by left|].
        right. exists s0. split; [by apply list_elem_of_further|done].
Qed.

Lemma group_from_ok d rs : dict_ok d → dict_ok (group_from d rs).
Proof.
  revert d. induction rs as [|r rs IH]; simpl; intros d Hd; [done|].
  apply IH. by apply dict_add_ok.
Qed.

Lemma group_from_mono d rs k s x :
  (k, s) ∈ d → x ∈ s → ∃ s', (k, s') ∈ group_from d rs ∧ x ∈ s'.
Proof.
  revert d s. induction rs as [|r rs IH]; simpl; intros d s Hin Hx; [eauto|].
  destruct (dict_add_mono (fingerprint r) r d k s x Hin Hx) as (s0 & H0 & Hx0).
  eauto.
Qed.

Lemma group_from_complete d rs r :
  r ∈ rs → ∃ s, (fingerprint r, s) ∈ group_from d rs ∧ r ∈ s.
Proof.
  revert d. induction rs as [|r0 rs IH]; simpl; intros d.
  - by intros ?%not_elem_of_nil.
  - intros [->|Hin]%elem_of_cons; [|by apply IH].
    destruct (dict_add_in (fingerprint r0) r0 d) as (s & Hs & Hr).
    eapply group_from_mono; eauto.
Qed.

Lemma group_from_sound d rs k s x :
  (k, s) ∈ group_from d rs → x ∈ s →
  x ∈ rs ∨ ∃ s0, (k, s0) ∈ d ∧ x ∈ s0.
Proof.
  revert d s. induction rs as [|r rs IH]; simpl; intros d s Hin Hx.
  - right. eauto.
  - destruct (IH _ _ Hin Hx) as [H|(s0 & H0 & Hx0)].
    + left. by apply list_elem_of_further.
    + destruct (dict_add_from _ _ _ _ _ _ H0 Hx0) as [->|H1].
      * left. apply list_elem_of_here.
      * by right.
Qed.

Lemma dict_ok_nil : dict_ok [].
Proof.
  split; [apply NoDup_nil_2|]. by intros k s ?%not_elem_of_nil.
Qed.

Lemma group_releases_ok rs : dict_ok (group_releases rs).
Proof. apply (group_from_ok [] rs), dict_ok_nil. Qed.

Lemma group_releases_complete rs r :
  r ∈ rs → ∃ s, (fingerprint r, s) ∈ group_releases rs ∧ r ∈ s.
Proof. apply group_from_complete. Qed.

Lemma group_releases_sound rs k s x :
  (k, s) ∈ group_releases rs → x ∈ s → x ∈ rs ∧ fingerprint x = k.
Proof.
  intros Hin Hx. split.
  - destruct (group_from_sound [] rs k s x Hin Hx) as [H|(s0 & H0 & _)];
      [done|]. by apply not_elem_of_nil in H0.
  - destruct (group_releases_ok rs) as [_ H]. by apply (H k s).
Qed.

Lemma dict_lookup_unique (d : list (string * list Release)) k s1 s2 :
  NoDup (map fst d) → (k, s1) ∈ d → (k, s2) ∈ d → s1 = s2.
Proof.
  induction d as [|[k' s'] d IH]; simpl.
  - by intros _ ?%not_elem_of_nil.
  - intros [Hk Hnd]%NoDup_cons H1 H2.
    apply elem_of_cons in H1 as [E1|H1]; apply elem_of_cons in H2 as [E2|H2].
    + congruence.
    + injection E1 as -> ->. destruct Hk. apply list_elem_of_fmap.
      by exists (k', s2).
    + injection E2 as -> ->. destruct Hk. apply list_elem_of_fmap.
      by exists (k', s1).
    + by apply IH.
Qed.

Lemma group_from_keys d rs :
  map fst (group_from d rs) =
  foldl (fun acc k => if bool_decide (k ∈ acc) then acc else acc ++ [k])
        (map fst d) (map fingerprint rs).
Proof.
  revert d. induction rs as [|r rs IH]; simpl; intros d; [done|].
  by rewrite IH, dict_add_keys.
Qed.

Lemma group_releases_keys rs :
  map fst (group_releases rs) = first_met (map fingerprint rs).
Proof. apply (group_from_keys [] rs). Qed.

End GroupingFacts.

Module SortFacts.

Lemma insert_desc_perm s l : insert_desc s l ≡ₚ s :: l.
Proof.
  induction l as [|t l IH]; simpl; [done|].
  destruct (version_ltb (latest s) (latest t)); [|done].
  rewrite IH. apply Permutation_swap.
Qed.

Lemma sort_groups_perm l : sort_groups l ≡ₚ l.
Proof.
  induction l as [|s l IH]; simpl; [done|].
  by rewrite insert_desc_perm, IH.
Qed.

Lemma version_ltb_not_older s t :
  version_ltb (latest s) (latest t) = true → not_older t s.
Proof.
  unfold not_older, version_ltb.
  rewrite (VersionFacts.version_compare_antisym (latest s) (latest t)).
  by destruct (version_compare (latest s) (latest t)).
Qed.

Lemma insert_desc_sorted s l :
  StronglySorted not_older l → StronglySorted not_older (insert_desc s l).
Proof.
  induction l as [|t l IH]; simpl; intros Hl.
  - by repeat constructor.
  - apply StronglySorted_inv in Hl as [Hl Ht].
    destruct (version_ltb (latest s) (latest t)) eqn:E.
    + constructor; [by apply IH|].
      apply Forall_forall. intros u Hu.
      rewrite insert_desc_perm in Hu.
      apply elem_of_cons in Hu as [->|Hu].
      * by apply version_ltb_not_older.
      * rewrite Forall_forall in Ht. by apply Ht.
    + constructor; [by constructor|].
      constructor; [done|].
      eapply Forall_impl; [exact Ht|]. intros u Hu. simpl in Hu.
      unfold not_older in *. by eapply VersionFacts.version_not_ltb_trans.
Qed.

Lemma sort_groups_sorted l : StronglySorted not_older (sort_groups l).
Proof.
  induction l as [|s l IH]; simpl; [constructor|].
  by apply insert_desc_sorted.
Qed.

(** The sort is stable: the sets whose newest releases have one and the
    same version come out in the order in which they went in. *)
Lemma insert_desc_stable (v : Version) s l :
  filter (λ t, latest t = v) (insert_desc s l) =
  filter (λ t, latest t = v) (s :: l).
Proof.
  induction l as [|t l IH]; simpl; [done|].
  destruct (version_ltb (latest s) (latest t)) eqn:E; [|done].
  rewrite filter_cons, IH, !filter_cons.
  destruct (decide (latest t = v)) as [Ht|Ht]; [|done].
  destruct (decide (latest s = v)) as [Hs|Hs]; [|done].
  exfalso. unfold version_ltb in E.
  by rewrite Hs, <- Ht, VersionFacts.version_compare_refl in E.
Qed.

Lemma sort_groups_stable (v : Version) l :
  filter (λ t, latest t = v) (sort_groups l) = filter (λ t, latest t = v) l.
Proof.
  induction l as [|s l IH]; simpl; [done|].
  by rewrite insert_desc_stable, !filter_cons, IH.
Qed.

(** [max] of a set is a newest member of it: the key of the sort is the
    version of a newest member. *)
Lemma version_ltb_irrefl (v : Version) : version_ltb v v = false.
Proof. unfold version_ltb. by rewrite VersionFacts.version_compare_refl. Qed.

Lemma version_ltb_asym (v1 v2 : Version) :
  version_ltb v1 v2 = true → version_ltb v2 v1 = false.
Proof.
  unfold version_ltb.
  rewrite (VersionFacts.version_compare_antisym v1 v2).
  by destruct (version_compare v1 v2).
Qed.

Lemma max_from_newest (best : Release) (s : list Release) :
  newest_in (best :: s) (max_from best s).
Proof.
  revert best. induction s as [|r s IH]; intros best; simpl.
  - split; [apply list_elem_of_here|].
    intros r' ->%list_elem_of_singleton. apply version_ltb_irrefl.
  - set (b := if release_ltb best r then r else best).
    destruct (IH b) as [Hin Hmax].
    assert (version_ltb (rel_version b) (rel_version best) = false ∧
            version_ltb (rel_version b) (rel_version r) = false) as [Hb Hr].
    { unfold b, release_ltb.
      destruct (version_ltb (rel_version best) (rel_version r)) eqn:E.
      - split; [by apply version_ltb_asym|apply version_ltb_irrefl].
      - split; [apply version_ltb_irrefl|done]. }
    assert (version_ltb (rel_version (max_from b s)) (rel_version b) = false)
      as Hmb by apply Hmax, list_elem_of_here.
    split.
    + apply elem_of_cons in Hin as [->|Hin].
      * unfold b. destruct (release_ltb best r).
        -- apply list_elem_of_further, list_elem_of_here.
        -- apply list_elem_of_here.
      * by do 2 apply list_elem_of_further.
    + intros r' [->|[->|Hr']%elem_of_cons]%elem_of_cons.
      * by eapply VersionFacts.version_not_ltb_trans.
      * by eapply VersionFacts.version_not_ltb_trans.
      * by apply Hmax, list_elem_of_further.
Qed.

Lemma latest_newest (s : list Release) :
  s ≠ [] → ∃ r, newest_in s r ∧ rel_version r = latest s.
Proof.
  destruct s as [|r s]; [done|]. intros _.
  exists (max_from r s). split; [apply max_from_newest|done].
Qed.

(** The key does not depend on the order in which a set yields its
    members. *)
Lemma version_ltb_antisym (v1 v2 : Version) :
  version_ltb v1 v2 = false → version_ltb v2 v1 = false → v1 = v2.
Proof.
  unfold version_ltb.
  rewrite (VersionFacts.version_compare_antisym v1 v2).
  destruct (version_compare v1 v2) eqn:E; try done.
  intros _ _. by apply VersionFacts.version_compare_eq.
Qed.

Lemma latest_perm (s s' : list Release) : s ≡ₚ s' → latest s = latest s'.
Proof.
  intros Hp. destruct s as [|x s].
  { by apply Permutation_nil_l in Hp as ->. }
  assert (s' ≠ []) as Hs'.
  { intros ->. by apply Permutation_nil_r in Hp. }
  destruct (latest_newest (x :: s)) as (r & [Hr Hmax] & <-); [done|].
  destruct (latest_newest s' Hs') as (r' & [Hr' Hmax'] & <-).
  apply version_ltb_antisym.
  - apply Hmax. by rewrite Hp.
  - apply Hmax'. by rewrite <- Hp.
Qed.

Lemma not_older_newest (s t : list Release) :
  s ≠ [] → t ≠ [] → not_older s t → newest_not_older s t.
Proof.
  intros Hs Ht Hst.
  destruct (latest_newest s Hs) as (rs & Hrs & Es).
  destruct (latest_newest t Ht) as (rt & [_ Hrt] & Et).
  exists rs. split; [done|]. intros r' Hr'. rewrite Es.
  eapply VersionFacts.version_not_ltb_trans; [exact Hst|].
  rewrite <- Et. by apply Hrt.
Qed.

Lemma StronglySorted_impl_Forall {A} (R R' : relation A) (P : A → Prop) l :
  Forall P l → (∀ x y, P x → P y → R x y → R' x y) →
  StronglySorted R l → StronglySorted R' l.
Proof.
  intros HP HR Hl. induction Hl as [|x l Hl IH Hx]; [constructor|].
  apply Forall_cons in HP as [Px Pl].
  constructor; [by apply IH|].
  rewrite Forall_forall in Hx, Pl. apply Forall_forall. intros y Hy.
  apply HR; [done|by apply Pl|by apply Hx].
Qed.

Lemma enumerate_numbers n l :
  map Group.number (enumerate_groups n l) = seq n (length l).
Proof.
  revert n. induction l as [|s l IH]; simpl; intros n; [done|].
  by rewrite IH.
Qed.

Lemma enumerate_all_releases n l :
  map Group.all_releases (enumerate_groups n l) = l.
Proof.
  revert n. induction l as [|s l IH]; simpl; intros n; [done|].
  by rewrite IH.
Qed.

Lemma enumerate_length n l : length (enumerate_groups n l) = length l.
Proof. by rewrite <- (length_map Group.number), enumerate_numbers, length_seq. Qed.

Lemma enumerate_Forall (P : list Release → Prop) n l :
  Forall P l → Forall (λ g, P (Group.all_releases g)) (enumerate_groups n l).
Proof.
  intros H. revert n. induction H as [|s l Hs Hl IH]; simpl; intros n.
  - constructor.
  - constructor; [done|apply IH].
Qed.

Lemma enumerate_sorted (R : relation (list Release)) n l :
  StronglySorted R l →
  StronglySorted (λ g1 g2, R (Group.all_releases g1) (Group.all_releases g2))
                 (enumerate_groups n l).
Proof.
  intros H. revert n. induction H as [|s l Hl IH Hs]; simpl; intros n.
  - constructor.
  - constructor; [apply IH|]. by apply (enumerate_Forall (R s)).
Qed.

End SortFacts.

Module MakeGroupsFacts.
Import GroupingFacts SortFacts.

Lemma elem_of_make_groups rs (s : list Release) :
  (∃ g, g ∈ make_groups rs ∧ Group.all_releases g = s) ↔
  ∃ k, (k, s) ∈ group_releases rs.
Proof.
  unfold make_groups. set (L := map snd (group_releases rs)).
  pose proof (enumerate_all_releases 0 (sort_groups L)) as HE.
  transitivity (s ∈ L).
  - split.
    + intros (g & Hg & <-). rewrite <- (sort_groups_perm L), <- HE.
      apply list_elem_of_fmap. by exists g.
    + intros Hs. rewrite <- (sort_groups_perm L) in Hs.
      rewrite <- HE in Hs at 1.
      apply list_elem_of_fmap in Hs as (g & -> & Hg). by exists g.
  - split.
    + intros ([k s'] & -> & H)%list_elem_of_fmap. by exists k.
    + intros (k & H). apply list_elem_of_fmap. by exists (k, s).
Qed.

Lemma same_group_iff rs r1 r2 :
  r1 ∈ rs → r2 ∈ rs →
  same_group (make_groups rs) r1 r2 ↔ fingerprint r1 = fingerprint r2.
Proof.
  intros H1 H2. split.
  - intros (g & Hg & Hr1 & Hr2).
    destruct (proj1 (elem_of_make_groups rs (Group.all_releases g)))
      as (k & Hk); [by exists g|].
    destruct (group_releases_sound rs _ _ r1 Hk Hr1) as [_ ->].
    by destruct (group_releases_sound rs _ _ r2 Hk Hr2) as [_ ->].
  - intros E.
    destruct (group_releases_complete rs r1 H1) as (s1 & Hs1 & Hr1).
    destruct (group_releases_complete rs r2 H2) as (s2 & Hs2 & Hr2).
    rewrite <- E in Hs2.
    assert (s1 = s2) as <-.
    { eapply dict_lookup_unique; [|exact Hs1|exact Hs2].
      apply group_releases_ok. }
    destruct (proj2 (elem_of_make_groups rs s1)) as (g & Hg & Hgs);
      [by exists (fingerprint r1)|].
    exists g. by rewrite Hgs.
Qed.

Lemma fingerprint_perm r1 r2 :
  map requirement_str (dependencies_of r1) ≡ₚ
    map requirement_str (dependencies_of r2) →
  fingerprint r1 = fingerprint r2.
Proof. intros H. unfold fingerprint. by rewrite (StrFacts.str_sorted_perm _ _ H). Qed.

Lemma make_groups_numbers rs :
  map Group.number (make_groups rs) = seq 0 (length (make_groups rs)).
Proof.
  unfold make_groups. by rewrite enumerate_numbers, enumerate_length.
Qed.

Lemma make_groups_sorted rs :
  StronglySorted
    (λ g1 g2, not_older (Group.all_releases g1) (Group.all_releases g2))
    (make_groups rs).
Proof. apply enumerate_sorted, sort_groups_sorted. Qed.

Lemma make_groups_stable rs (v : Version) :
  filter (λ s, latest s = v) (map Group.all_releases (make_groups rs)) =
  filter (λ s, latest s = v) (map snd (group_releases rs)).
Proof.
  unfold make_groups. by rewrite enumerate_all_releases, sort_groups_stable.
Qed.

(** No set of the dict lists a release twice, and no two keys share a
    set. *)
Lemma set_add_NoDup (r : Release) (s : list Release) :
  NoDup s → NoDup (set_add r s).
Proof.
  intros Hs. unfold set_add. case_bool_decide as Hin; [done|].
  apply NoDup_app. split_and!; [done| |apply NoDup_singleton].
  intros x Hx ->%list_elem_of_singleton. done.
Qed.

Lemma dict_add_NoDup (key : string) (r : Release) d :
  (∀ k s, (k, s) ∈ d → NoDup s) →
  ∀ k s, (k, s) ∈ dict_add key r d → NoDup s.
Proof.
  induction d as [|[k' s'] d IH]; simpl; intros Hd k s.
  - intros [= -> ->]%list_elem_of_singleton. apply set_add_NoDup, NoDup_nil_2.
  - destruct (String.eqb_spec k' key) as [->|Hne].
    + intros [[= -> ->]|Hin]%elem_of_cons.
      * apply set_add_NoDup, (Hd key). apply list_elem_of_here.
      * apply (Hd k). by apply list_elem_of_further.
    + intros [[= -> ->]|Hin]%elem_of_cons.
      * apply (Hd k'). apply list_elem_of_here.
      * apply (IH (λ k0 s0 H0, Hd k0 s0 (list_elem_of_further _ _ _ H0)) k).
        done.
Qed.

Lemma group_from_NoDup d rs :
  (∀ k s, (k, s) ∈ d → NoDup s) →
  ∀ k s, (k, s) ∈ group_from d rs → NoDup s.
Proof.
  revert d. induction rs as [|r rs IH]; simpl; intros d Hd; [done|].
  apply IH. by apply dict_add_NoDup.
Qed.

Lemma group_releases_NoDup rs k s :
  (k, s) ∈ group_releases rs → NoDup s.
Proof.
  apply (group_from_NoDup [] rs). by intros ?? ?%not_elem_of_nil.
Qed.

Lemma dict_ok_values_NoDup d : dict_ok d → NoDup (map snd d).
Proof.
  induction d as [|[k s] d IH]; intros [Hk Hd]; simpl; [apply NoDup_nil_2|].
  simpl in Hk. apply NoDup_cons in Hk as [Hk Hk'].
  apply NoDup_cons. split.
  - intros ([k' s'] & Es & Hin)%list_elem_of_fmap. simpl in Es. subst s'.
    destruct (Hd k s (list_elem_of_here _ _)) as [Hne Hs].
    destruct (Hd k' s (list_elem_of_further _ _ _ Hin)) as [_ Hs'].
    destruct s as [|r s]; [done|].
    assert (k = k') as ->.
    { rewrite <- (Hs r), <- (Hs' r); [done|apply list_elem_of_here..]. }
    apply Hk. apply list_elem_of_fmap. by exists (k', r :: s).
  - apply IH. split; [done|].
    intros k0 s0 H0. apply Hd. by apply list_elem_of_further.
Qed.

Lemma enumerate_groups_inj n (l : list (list Release)) e1 e2 :
  NoDup l → e1 ∈ enumerate_groups n l → e2 ∈ enumerate_groups n l →
  Group.all_releases e1 = Group.all_releases e2 → e1 = e2.
Proof.
  intros Hl. revert n. induction Hl as [|s l Hs Hl IH]; intros n; simpl.
  - by intros ?%not_elem_of_nil.
  - assert (∀ e m, e ∈ enumerate_groups m l → Group.all_releases e ∈ l) as Hin.
    { intros e m He. rewrite <- (SortFacts.enumerate_all_releases m l).
      apply list_elem_of_fmap. by exists e. }
    intros [->|H1]%elem_of_cons [->|H2]%elem_of_cons E.
    + done.
    + destruct Hs. simpl in E. rewrite E. by eapply Hin.
    + destruct Hs. simpl in E. rewrite <- E. by eapply Hin.
    + by eapply IH.
Qed.

End MakeGroupsFacts.

Module RunFacts.
Section RunFacts.
Import Dependency Run.
Context {C Spec : Type} `{!ConstraintOps C Spec}.

Local Abbreviation World := (Dependency.World C).
Local Abbreviation t := (Dependency.t C).
Local Abbreviation M := (Dependency.M C).

Local Arguments _actualize_groups_in : simpl never.
Local Arguments _actualize_groups : simpl never.
Local Arguments groups : simpl never.
Local Arguments group : simpl never.
Local Arguments all_releases : simpl never.
Local Arguments _fetch_releases_deps : simpl never.
Local Arguments make_groups : simpl never.

(** After [_fetch_releases_deps] every release has its dependencies, and is
    otherwise the release it was. *)
Lemma fetch_deps_resolved (rp : Repo) (n : nat) (rs : list Release) :
  Forall (λ r, is_Some (rel_dependencies r)) (fst (fetch_deps rp n rs)).
Proof.
  revert n. induction rs as [|r rs IH]; intros n; simpl; [constructor|].
  destruct (rel_dependencies r) as [ds|] eqn:E.
  - specialize (IH n). destruct (fetch_deps rp n rs) as [out n'].
    constructor; [by rewrite E|done].
  - specialize (IH (S n)). destruct (fetch_deps rp (S n) rs) as [out n'].
    constructor; [by eexists|done].
Qed.

Lemma fetch_deps_versions (rp : Repo) (n : nat) (rs : list Release) :
  map rel_version (fst (fetch_deps rp n rs)) = map rel_version rs ∧
  map rel_name (fst (fetch_deps rp n rs)) = map rel_name rs.
Proof.
  revert n. induction rs as [|r rs IH]; intros n; simpl; [done|].
  destruct (rel_dependencies r) as [ds|].
  - destruct (IH n) as [IH1 IH2]. destruct (fetch_deps rp n rs) as [out n'].
    simpl in *. by rewrite IH1, IH2.
  - destruct (IH (S n)) as [IH1 IH2].
    destruct (fetch_deps rp (S n) rs) as [out n'].
    simpl in *. by rewrite IH1, IH2.
Qed.

(** A release whose dependencies are known costs no request. *)
Lemma fetch_deps_known (rp : Repo) (n : nat) (rs : list Release) :
  Forall (λ r, is_Some (rel_dependencies r)) rs →
  fetch_deps rp n rs = (rs, n).
Proof.
  induction 1 as [|r rs [ds E] _ IH]; simpl; [done|]. by rewrite E, IH.
Qed.

Lemma bind_ok {A B} (m : M A) (f : A → M B) w a w' :
  m w = (Ok a, w') → (m ≫= f) w = f a w'.
Proof. unfold mbind, M_bind. by intros ->. Qed.

Lemma bind_raise {A B} (m : M A) (f : A → M B) w e w' :
  m w = (Raise e, w') → (m ≫= f) w = (Raise e, w').
Proof. unfold mbind, M_bind. by intros ->. Qed.

Lemma for_each_filter_group gs (w : World) :
  for_each gs filter_group w =
  (Ok tt, mkWorld (self w) (refiltered (constraint (self w)) gs (store w))
                  (requests w)).
Proof.
  revert w. induction gs as [|a gs IH]; intros [d h n]; [done|].
  simpl. unfold mbind, M_bind. simpl. by rewrite IH.
Qed.

Lemma refiltered_fresh c (h G : list Group.t) :
  refiltered c (seq (length h) (length G)) (h ++ G) = h ++ map (refilter c) G.
Proof.
  revert h. induction G as [|g G IH]; intros h; simpl.
  - done.
  - unfold refiltered in *. simpl.
    replace (alter (refilter c) (length h) (h ++ g :: G))
      with ((h ++ [refilter c g]) ++ G).
    + replace (S (length h)) with (length (h ++ [refilter c g]))
        by (rewrite length_app; simpl; lia).
      by rewrite IH, <- app_assoc.
    + rewrite <- app_assoc. simpl.
      rewrite <- (Nat.add_0_r (length h)). by rewrite alter_app_r.
Qed.

Lemma all_releases_run (w : World) :
  all_releases w =
  (Ok (fst (listed w)),
   mkWorld (set_dict_all_releases (Some (fst (listed w))) (self w))
           (store w) (snd (listed w))).
Proof.
  destruct w as [d h n]. unfold all_releases, listed. simpl.
  unfold mbind, M_bind, get_self. simpl.
  destruct (dict_all_releases d) eqn:E; simpl.
  - unfold mret, M_ret. do 2 f_equal. destruct d; simpl in *. by subst.
  - done.
Qed.

Lemma groups_cached (w : World) gs :
  dict_groups (self w) = Some gs → groups w = (Ok gs, w).
Proof.
  intros E. unfold groups, mbind, M_bind, get_self. by rewrite E.
Qed.

Lemma set_dict_all_releases_twice x y (d : t) :
  set_dict_all_releases x (set_dict_all_releases y d) =
  set_dict_all_releases x d.
Proof. done. Qed.

Lemma fetch_releases_deps_run (w : World) :
  _fetch_releases_deps w =
  (Ok tt,
   mkWorld (set_dict_all_releases (Some (fst (fetched w))) (self w))
           (store w) (snd (fetched w))).
Proof.
  unfold _fetch_releases_deps.
  rewrite (bind_ok _ _ _ _ _ (all_releases_run w)).
  unfold assign_deps, fetched. simpl.
  by destruct (fetch_deps (repo (self w)) (snd (listed w)) (fst (listed w))).
Qed.

(** With groups given, [_actualize_groups] filters them and does not read
    [self.groups]. *)
Lemma actualize_groups_in_given (k : M (list addr)) force a gs (w : World) :
  _actualize_groups_in k force (Some (a :: gs)) w =
  (Ok true,
   mkWorld (self w) (refiltered (constraint (self w)) (a :: gs) (store w))
           (requests w)).
Proof.
  unfold _actualize_groups_in.
  by rewrite (bind_ok _ _ _ _ _ (for_each_filter_group (a :: gs) w)).
Qed.

(** With an empty tuple given, while [groups] is being computed, it returns
    [False] at once. *)
Lemma actualize_groups_in_empty (k : M (list addr)) (w : World) :
  dict_groups (self w) = None →
  _actualize_groups_in k false (Some []) w = (Ok false, w).
Proof.
  intros E. unfold _actualize_groups_in, mbind, M_bind, get_self. simpl.
  by rewrite E.
Qed.

Lemma groups_first (w : World) :
  dict_groups (self w) = None →
  groups w = (Ok (new_addrs w), with_groups w).
Proof.
  intros E. unfold groups.
  rewrite (bind_ok _ _ w (self w) w) by done. rewrite E.
  rewrite (bind_ok _ _ _ _ _ (fetch_releases_deps_run w)).
  match goal with |- (_ ≫= _) ?w2 = _ =>
    rewrite (bind_ok _ _ _ _ _ (all_releases_run w2)) end.
  unfold listed at 1. simpl.
  unfold alloc_groups at 1.
  unfold mbind at 1, M_bind at 1. simpl.
  unfold with_groups, new_addrs.
  set (rs := fst (fetched w)). set (G := make_groups rs).
  clearbody G. destruct G as [|g G'].
  - cbn [length seq]. erewrite (bind_ok (_actualize_groups_in _ _ _));
      [|by apply actualize_groups_in_empty].
    unfold mbind, M_bind, update_self, mret, M_ret. simpl.
    by rewrite set_dict_all_releases_twice.
  - cbn [length seq].
    rewrite (bind_ok _ _ _ _ _ (actualize_groups_in_given _ _ _ _ _)).
    unfold mbind, M_bind, update_self, mret, M_ret. simpl self. simpl store.
    simpl requests. rewrite set_dict_all_releases_twice.
    do 2 f_equal.
    exact (refiltered_fresh (constraint (self w)) (store w) (g :: G')).
Qed.

Lemma groups_run (w : World) :
  groups w =
  match dict_groups (self w) with
  | Some gs => (Ok gs, w)
  | None => (Ok (new_addrs w), with_groups w)
  end.
Proof.
  destruct (dict_groups (self w)) eqn:E.
  - by apply groups_cached.
  - by apply groups_first.
Qed.

Lemma actualize_groups_run (w : World) :
  _actualize_groups true None w = (Ok true, actualized w).
Proof.
  unfold _actualize_groups, _actualize_groups_in, actualized.
  rewrite (bind_ok _ _ w (self w) w) by done. cbn [negb andb].
  destruct (dict_groups (self w)) as [gs|] eqn:E.
  - rewrite (bind_ok _ _ _ _ _ (groups_cached w gs E)).
    by rewrite (bind_ok _ _ _ _ _ (for_each_filter_group gs w)), E.
  - rewrite (bind_ok _ _ _ _ _ (groups_first w E)).
    by rewrite (bind_ok _ _ _ _ _ (for_each_filter_group _ _)).
Qed.

(** *** What [_actualize_groups(force=True)] leaves alone *)

Lemma actualized_self (w : World) :
  raw_name (self (actualized w)) = raw_name (self w) ∧
  constraint (self (actualized w)) = constraint (self w) ∧
  repo (self (actualized w)) = repo (self w) ∧
  link (self (actualized w)) = link (self w) ∧
  dict_group (self (actualized w)) = dict_group (self w).
Proof.
  unfold actualized. destruct (dict_groups (self w)); by repeat split.
Qed.

Lemma actualized_groups_cached (w : World) gs :
  dict_groups (self w) = Some gs →
  actualized w =
  mkWorld (self w) (refiltered (constraint (self w)) gs (store w))
          (requests w).
Proof. intros E. unfold actualized. rewrite E. simpl. by rewrite E. Qed.

Lemma shape_refilter c g : Group.shape (refilter c g) = Group.shape g.
Proof. done. Qed.

Lemma alter_refilter_shape c a (h : list Group.t) :
  map Group.shape (alter (refilter c) a h) = map Group.shape h.
Proof.
  transitivity (alter id a (Group.shape <$> h)).
  - apply (list_fmap_alter Group.shape (refilter c) id).
    by apply Forall_true.
  - by apply list_alter_id.
Qed.

(** Filtering leaves the number and the members of every group as they
    are. *)
Lemma refiltered_shape c gs (h : list Group.t) :
  map Group.shape (refiltered c gs h) = map Group.shape h.
Proof.
  revert h. induction gs as [|a gs IH]; intros h; [done|].
  unfold refiltered in *. simpl. by rewrite IH, alter_refilter_shape.
Qed.

Lemma refiltered_length c gs (h : list Group.t) :
  length (refiltered c gs h) = length h.
Proof.
  by rewrite <- (length_map Group.shape), refiltered_shape, length_map.
Qed.

(** *** [group], [compat], [unlock] *)

Lemma groups_grouped (w : World) :
  groups w = (Ok (fst (grouped w)), snd (grouped w)).
Proof.
  rewrite groups_run. unfold grouped. by destruct (dict_groups (self w)).
Qed.

Lemma group_cached (w : World) g :
  dict_group (self w) = Some g → group w = (Ok g, w).
Proof. intros E. unfold group, mbind, M_bind, get_self. by rewrite E. Qed.

Lemma group_first (w : World) :
  dict_group (self w) = None →
  group w =
  (Ok (selected w),
   mkWorld (set_dict_group (Some (selected w)) (self (snd (grouped w))))
           (store (snd (grouped w))) (requests (snd (grouped w)))).
Proof.
  intros E. unfold group.
  rewrite (bind_ok _ _ w (self w) w) by done. rewrite E.
  by rewrite (bind_ok _ _ _ _ _ (groups_grouped w)).
Qed.

Lemma grouped_self (w : World) :
  raw_name (self (snd (grouped w))) = raw_name (self w) ∧
  constraint (self (snd (grouped w))) = constraint (self w) ∧
  repo (self (snd (grouped w))) = repo (self w) ∧
  link (self (snd (grouped w))) = link (self w) ∧
  dict_group (self (snd (grouped w))) = dict_group (self w) ∧
  dict_groups (self (snd (grouped w))) = Some (fst (grouped w)).
Proof.
  unfold grouped. destruct (dict_groups (self w)) eqn:E; by repeat split.
Qed.

Lemma compat_unlocked (w : World) :
  dict_group (self w) = None →
  compat w =
  (Ok (existsb (λ a, negb (empty_at (store (snd (grouped w))) a))
               (fst (grouped w))),
   snd (grouped w)).
Proof.
  intros E. unfold compat.
  rewrite (bind_ok _ _ w (self w) w) by done.
  unfold locked. rewrite E, bool_decide_eq_false_2 by (by intros [??]).
  by rewrite (bind_ok _ _ _ _ _ (groups_grouped w)).
Qed.

Lemma compat_locked (w : World) g :
  dict_group (self w) = Some g →
  compat w =
  (match g with
   | Some a => Ok (negb (empty_at (store w) a))
   | None => Raise (AttributeError "'NoneType' object has no attribute 'empty'")
   end, w).
Proof.
  intros E. unfold compat.
  rewrite (bind_ok _ _ w (self w) w) by done.
  unfold locked. rewrite E, bool_decide_eq_true_2 by eauto.
  rewrite (bind_ok _ _ _ _ _ (group_cached w g E)).
  by destruct g.
Qed.

(** *** [merge] *)

Lemma merge_run (dep : t) (w : World) :
  merge dep w =
  match check_links (link (self w)) (link dep) with
  | Raise e => (Raise e, w)
  | Ok _ =>
      let d := adopted dep (self w) in
      match constraint_merge (constraint d) (constraint dep) with
      | Raise e => (Raise e, mkWorld d (store w) (requests w))
      | Ok c =>
          (Ok tt,
           actualized (mkWorld (set_constraint c d) (store w) (requests w)))
      end
  end.
Proof.
  destruct w as [d h n].
  unfold merge, adopted, mbind, M_bind, get_self, lift, update_self, mret,
    M_ret.
  cbn [self store requests].
  destruct (check_links (link d) (link dep)) as [[]|e]; [|done].
  destruct (is_GitRepo (link d) && negb (is_GitRepo (link dep))
            && negb (rev_truthy (link_rev (link d)))
            && negb (bool_decide (is_Some (dict_groups d))));
    cbn [self store requests].
  all: match goal with |- context [negb (is_GitRepo (link ?x)) && _] =>
         destruct (negb (is_GitRepo (link x)) && is_GitRepo (link dep)) end;
       cbn [self store requests].
  all: match goal with |- context [constraint_merge ?a ?b] =>
         destruct (constraint_merge a b) as [c|e] end;
       cbn [self store requests]; try done.
  all: by rewrite actualize_groups_run.
Qed.

End RunFacts.
End RunFacts.

Module DependencyFacts.
Section DependencyFacts.
Import Dependency Run RunFacts SortFacts MakeGroupsFacts.
Context {C Spec : Type} `{!ConstraintOps C Spec}.
Variable parse_link : option string -> option Link.
Variable get_repo : option Link -> Repo.

Local Abbreviation World := (Dependency.World C).
Local Abbreviation t := (Dependency.t C).
Local Abbreviation M := (Dependency.M C).

Local Arguments _actualize_groups_in : simpl never.
Local Arguments _actualize_groups : simpl never.
Local Arguments groups : simpl never.
Local Arguments group : simpl never.
Local Arguments all_releases : simpl never.
Local Arguments _fetch_releases_deps : simpl never.
Local Arguments make_groups : simpl never.

Lemma deref_fresh (h G : list Group.t) :
  deref (h ++ G) (seq (length h) (length G)) = G.
Proof.
  revert h. induction G as [|g G IH]; intros h; [done|].
  simpl. unfold deref in *. simpl.
  rewrite lookup_app_r, Nat.sub_diag by lia. simpl. f_equal.
  specialize (IH (h ++ [g])). rewrite <- app_assoc in IH. simpl in IH.
  rewrite length_app in IH. simpl in IH.
  by rewrite Nat.add_1_r in IH.
Qed.

Lemma groups_objects_first (w : World) :
  dict_groups (self w) = None →
  groups_objects w =
  map (refilter (constraint (self w))) (make_groups (fst (fetched w))).
Proof.
  intros E. unfold groups_objects. rewrite (groups_first w E).
  unfold with_groups, new_addrs. cbn [store].
  rewrite <- (length_map (refilter (constraint (self w)))
                        (make_groups (fst (fetched w)))).
  apply deref_fresh.
Qed.

Lemma map_number_refilter c (G : list Group.t) :
  map Group.number (map (refilter c) G) = map Group.number G.
Proof. induction G as [|g G IH]; simpl; [done|]. by rewrite IH. Qed.

Lemma map_all_releases_refilter c (G : list Group.t) :
  map Group.all_releases (map (refilter c) G) = map Group.all_releases G.
Proof. induction G as [|g G IH]; simpl; [done|]. by rewrite IH. Qed.

Lemma map_shape_refilter c (G : list Group.t) :
  map Group.shape (map (refilter c) G) = map Group.shape G.
Proof. induction G as [|g G IH]; simpl; [done|]. by rewrite IH. Qed.

Lemma sorted_refilter c (G : list Group.t) :
  StronglySorted
    (λ g1 g2, not_older (Group.all_releases g1) (Group.all_releases g2)) G →
  StronglySorted
    (λ g1 g2, not_older (Group.all_releases g1) (Group.all_releases g2))
    (map (refilter c) G).
Proof.
  intros HG.
  by apply (StronglySorted_fmap (refilter c)
    (λ g1 g2, not_older (Group.all_releases g1) (Group.all_releases g2))
    (λ g1 g2, not_older (Group.all_releases g1) (Group.all_releases g2)) G).
Qed.

(** The groups of a first read partition the releases. *)
Lemma groups_objects_partition (w : World) :
  dict_groups (self w) = None →
  let G := groups_objects w in
  let rs := fst (fetched w) in
  (∀ r, r ∈ rs ↔ ∃ g, g ∈ G ∧ r ∈ Group.all_releases g) ∧
  (∀ g1 g2 r, g1 ∈ G → g2 ∈ G →
              r ∈ Group.all_releases g1 → r ∈ Group.all_releases g2 →
              g1 = g2) ∧
  (∀ g, g ∈ G → Group.all_releases g ≠ [] ∧ NoDup (Group.all_releases g)).
Proof.
  intros E G rs. subst G. rewrite (groups_objects_first w E). fold rs.
  set (c := constraint (self w)).
  assert (∀ g, g ∈ map (refilter c) (make_groups rs) →
               ∃ e k, g = refilter c e ∧ e ∈ make_groups rs ∧
                      (k, Group.all_releases g) ∈ group_releases rs) as Hg.
  { intros g (e & -> & He)%list_elem_of_fmap.
    destruct (proj1 (MakeGroupsFacts.elem_of_make_groups rs
                       (Group.all_releases e))) as (k & Hk); [by exists e|].
    by exists e, k. }
  split_and!.
  - intros r. split.
    + intros Hr.
      destruct (GroupingFacts.group_releases_complete rs r Hr)
        as (s & Hs & Hrs).
      destruct (proj2 (MakeGroupsFacts.elem_of_make_groups rs s))
        as (e & He & <-); [by exists (fingerprint r)|].
      exists (refilter c e). split; [|done].
      apply list_elem_of_fmap. by exists e.
    + intros (g & (e & k & -> & He & Hk)%Hg & Hr).
      by destruct (GroupingFacts.group_releases_sound rs k _ r Hk Hr).
  - intros g1 g2 r (e1 & k1 & -> & He1 & Hk1)%Hg
      (e2 & k2 & -> & He2 & Hk2)%Hg Hr1 Hr2.
    f_equal.
    destruct (GroupingFacts.group_releases_sound rs k1 _ r Hk1 Hr1) as [_ <-].
    destruct (GroupingFacts.group_releases_sound rs k2 _ r Hk2 Hr2) as [_ <-].
    apply (enumerate_groups_inj 0
             (sort_groups (map snd (group_releases rs)))); [|done..|].
    + rewrite SortFacts.sort_groups_perm.
      apply dict_ok_values_NoDup, GroupingFacts.group_releases_ok.
    + eapply GroupingFacts.dict_lookup_unique; [|exact Hk1|exact Hk2].
      apply GroupingFacts.group_releases_ok.
  - intros g (e & k & -> & He & Hk)%Hg. split.
    + by destruct (proj2 (GroupingFacts.group_releases_ok rs) k _ Hk).
    + by apply (group_releases_NoDup rs k).
Qed.

(** C8: on a first read of [groups], the groups are numbered 0, 1, 2, ...
    in their order and partition the releases, no group being empty or
    listing a release twice.  They come ordered by their newest member
    release, newest first: the key of a group is the version of a member
    that no member of the group is newer than, whatever the order in which
    the set yields its members, a newest member of a group
    is not older than any member of a later group, and group 0 holds a
    release that no release of the node is newer than.  Groups whose newest
    releases have the same version keep the order in which their
    fingerprints are first met in the list of releases that the repository
    gave.  The numbers and the members of the groups are a function of the
    releases and their dependency lists alone: any other node that fetched
    the same data gets the same partition with the same numbers. *)
Theorem groups_ordered_numbered_deterministic (w : World) :
  dict_groups (self w) = None →
  let rs := fst (fetched w) in
  let G := groups_objects w in
  (∃ gs, fst (groups w) = Ok gs ∧ length gs = length G) ∧
  map Group.number G = seq 0 (length G) ∧
  (∀ r, r ∈ rs ↔ ∃ g, g ∈ G ∧ r ∈ Group.all_releases g) ∧
  (∀ g1 g2 r, g1 ∈ G → g2 ∈ G →
              r ∈ Group.all_releases g1 → r ∈ Group.all_releases g2 →
              g1 = g2) ∧
  (∀ g, g ∈ G → Group.all_releases g ≠ [] ∧ NoDup (Group.all_releases g)) ∧
  (∀ g, g ∈ G →
        ∃ r, newest_in (Group.all_releases g) r ∧
             rel_version r = latest (Group.all_releases g)) ∧
  (∀ g s, g ∈ G → s ≡ₚ Group.all_releases g →
          latest s = latest (Group.all_releases g)) ∧
  StronglySorted
    (λ g1 g2, not_older (Group.all_releases g1) (Group.all_releases g2)) G ∧
  StronglySorted
    (λ g1 g2,
       newest_not_older (Group.all_releases g1) (Group.all_releases g2)) G ∧
  (∀ g0, head G = Some g0 →
         ∃ r, r ∈ Group.all_releases g0 ∧ newest_in rs r) ∧
  (∀ v : Version,
     filter (λ s, latest s = v) (map Group.all_releases G) =
     filter (λ s, latest s = v) (map snd (group_releases rs))) ∧
  map fst (group_releases rs) = first_met (map fingerprint rs) ∧
  (∀ w2 : World,
     dict_groups (self w2) = None → fst (fetched w2) = rs →
     map Group.shape (groups_objects w2) = map Group.shape G).
Proof.
  intros E rs G.
  destruct (groups_objects_partition w E) as (Hcover & Hdisj & Hmem).
  fold G in Hcover, Hdisj, Hmem. fold rs in Hcover.
  assert (StronglySorted
            (λ g1 g2, not_older (Group.all_releases g1) (Group.all_releases g2))
            G) as Hsorted.
  { subst G. rewrite (groups_objects_first w E).
    apply sorted_refilter, make_groups_sorted. }
  assert (StronglySorted
            (λ g1 g2, newest_not_older (Group.all_releases g1)
                                       (Group.all_releases g2)) G) as Hnewest.
  { eapply (StronglySorted_impl_Forall _ _
              (λ g, Group.all_releases g ≠ [])); [| |exact Hsorted].
    - apply Forall_forall. intros g Hg. by apply Hmem.
    - intros g1 g2 H1 H2. by apply not_older_newest. }
  split_and!.
  - exists (new_addrs w). rewrite (groups_first w E). split; [done|].
    subst G. rewrite (groups_objects_first w E).
    unfold new_addrs. by rewrite length_seq, !length_map.
  - subst G. rewrite (groups_objects_first w E).
    by rewrite map_number_refilter, length_map, make_groups_numbers.
  - exact Hcover.
  - exact Hdisj.
  - exact Hmem.
  - intros g Hg. apply latest_newest. by apply Hmem.
  - intros g s _ Hs. by apply latest_perm.
  - exact Hsorted.
  - exact Hnewest.
  - intros g0 Hg0. destruct G as [|g G'] eqn:EG; [done|].
    injection Hg0 as ->.
    apply StronglySorted_inv in Hnewest as [_ Hlater].
    rewrite Forall_forall in Hlater.
    destruct (latest_newest (Group.all_releases g0)) as (r0 & [Hin0 Hmax0] & _).
    { apply Hmem, list_elem_of_here. }
    exists r0. split; [done|]. split.
    { apply Hcover. exists g0. split; [apply list_elem_of_here|done]. }
    intros r' (g & [->|Hg]%elem_of_cons & Hr')%Hcover; [by apply Hmax0|].
    destruct (Hlater g Hg) as (r1 & [Hin1 _] & Hr1).
    eapply VersionFacts.version_not_ltb_trans; [by apply Hmax0|by apply Hr1].
  - intros v. subst G. rewrite (groups_objects_first w E).
    rewrite map_all_releases_refilter. apply make_groups_stable.
  - apply GroupingFacts.group_releases_keys.
  - intros w2 E2 Hrs. subst G.
    rewrite (groups_objects_first w E), (groups_objects_first w2 E2), Hrs.
    by rewrite !map_shape_refilter.
Qed.

(** C10: when the link of [self] is not a git link and the link of [dep]
    is, [merge] leaves [self] with the link and the repository of [dep],
    whatever the revision of that link, whatever [self] has cached, and
    whether the rest of [merge] raises or not. *)
Theorem merge_adopts_git_link (dep : t) (w : World) :
  is_GitRepo (link (self w)) = false →
  is_GitRepo (link dep) = true →
  link (self (snd (merge dep w))) = link dep ∧
  repo (self (snd (merge dep w))) = repo dep.
Proof.
  intros Hs Hd. rewrite merge_run.
  assert (check_links (link (self w)) (link dep) = Ok tt) as ->.
  { unfold check_links. revert Hs.
    by destruct (link (self w)) as [[]|]. }
  assert (adopted dep (self w) =
          set_repo (repo dep) (set_link (link dep) (self w))) as ->.
  { unfold adopted. rewrite Hs. cbn [andb]. by rewrite Hs, Hd. }
  cbn zeta.
  destruct (constraint_merge _ _) as [c|e]; cbn [snd]; [|done].
  destruct (actualized_self
    (mkWorld (set_constraint c (set_repo (repo dep) (set_link (link dep) (self w))))
             (store w) (requests w))) as (_ & _ & -> & -> & _).
  done.
Qed.

(** *** Which releases share a group *)

Lemma same_group_refilter c (G : list Group.t) r1 r2 :
  same_group (map (refilter c) G) r1 r2 ↔ same_group G r1 r2.
Proof.
  unfold same_group. split.
  - intros (g & (g0 & -> & Hg0)%list_elem_of_fmap & H1 & H2). by exists g0.
  - intros (g & Hg & H1 & H2). exists (refilter c g). split; [|done].
    apply list_elem_of_fmap. by exists g.
Qed.

Lemma same_group_groups_objects (w : World) (r1 r2 : Release) :
  dict_groups (self w) = None →
  r1 ∈ fst (fetched w) → r2 ∈ fst (fetched w) →
  same_group (groups_objects w) r1 r2 ↔ fingerprint r1 = fingerprint r2.
Proof.
  intros E H1 H2. rewrite (groups_objects_first w E), same_group_refilter.
  by apply same_group_iff.
Qed.

(** C3, as amended: on a first read of [groups], two releases of the
    package are members of the same group if and only if their dependency
    lists give the same string once the string forms of the entries are
    sorted and joined with a bar, duplicates included; in particular two
    releases whose dependency lists differ only in the order of their
    entries share one group. *)
Theorem same_group_iff_same_fingerprint (w : World) (r1 r2 : Release) :
  dict_groups (self w) = None →
  r1 ∈ fst (fetched w) → r2 ∈ fst (fetched w) →
  (same_group (groups_objects w) r1 r2 ↔ fingerprint r1 = fingerprint r2) ∧
  (map requirement_str (dependencies_of r1) ≡ₚ
     map requirement_str (dependencies_of r2) →
   same_group (groups_objects w) r1 r2).
Proof.
  intros E H1 H2. split.
  - by apply same_group_groups_objects.
  - intros Hp. apply same_group_groups_objects; [done..|].
    by apply fingerprint_perm.
Qed.

(** *** Lock state *)

Lemma locked_cached (d : t) :
  locked d = true ↔ ∃ g, dict_group d = Some g.
Proof.
  unfold locked. rewrite bool_decide_eq_true. by unfold is_Some.
Qed.

(** Once locked, reading [group] returns what is cached and changes
    nothing: no request is made, no group is looked at, whatever the
    repository would answer. *)
Lemma group_read_stable (w : World) :
  locked (self w) = true →
  ∃ g, dict_group (self w) = Some g ∧ group w = (Ok g, w).
Proof.
  intros (g & E)%locked_cached. exists g. split; [done|].
  by apply group_cached.
Qed.

(** Reading [group] locks the node, with its groups cached. *)
Lemma group_read_locks (w : World) :
  locked (self (snd (group w))) = true ∧
  (dict_group (self w) = None →
   is_Some (dict_groups (self (snd (group w))))).
Proof.
  destruct (dict_group (self w)) as [g|] eqn:E.
  - rewrite (group_cached w g E). split; [|done].
    apply locked_cached. eauto.
  - rewrite (group_first w E). cbn [snd self]. split.
    + apply locked_cached. eauto.
    + intros _. change (is_Some (dict_groups (self (snd (grouped w))))).
      destruct (grouped_self w) as (_ & _ & _ & _ & _ & ->). eauto.
Qed.

(** [merge] and the cached selection. *)
Lemma merge_dict_group (dep : t) (w : World) :
  dict_group (self (snd (merge dep w))) = dict_group (self w).
Proof.
  rewrite merge_run.
  assert (∀ d, dict_group (adopted dep d) = dict_group d) as Had.
  { intros d. unfold adopted.
    destruct (_ && _ && _ && _); cbn zeta; by destruct (_ && _). }
  destruct (check_links _ _) as [[]|e]; [|done]. cbn zeta.
  destruct (constraint_merge _ _) as [c|e]; cbn [snd].
  - destruct (actualized_self (mkWorld (set_constraint c (adopted dep (self w)))
                                  (store w) (requests w)))
      as (_ & _ & _ & _ & ->).
    apply Had.
  - apply Had.
Qed.

Lemma adopted_dict_groups (dep d : t) :
  dict_groups (adopted dep d) = dict_groups d.
Proof.
  unfold adopted.
  destruct (_ && _ && _ && _); cbn zeta; by destruct (_ && _).
Qed.



(** C4, as amended: when the link of [self] is a git link without a
    revision and the link of [dep] is not a git link, [merge] replaces the
    repository of [self] with that of [dep] if [self] has not read its
    groups yet, and leaves it unchanged if it has; a node that has selected
    a group by reading [group] has read its groups, so its repository is
    left unchanged. *)
Theorem merge_prefers_registry_before_groups (dep : t) (w : World) :
  is_GitRepo (link (self w)) = true →
  rev_truthy (link_rev (link (self w))) = false →
  is_GitRepo (link dep) = false →
  (dict_groups (self w) = None →
   repo (self (snd (merge dep w))) = repo dep) ∧
  (is_Some (dict_groups (self w)) →
   repo (self (snd (merge dep w))) = repo (self w)) ∧
  (∀ w0 : World, dict_group (self w0) = None → w = snd (group w0) →
   locked (self w) = true ∧
   repo (self (snd (merge dep w))) = repo (self w)).
Proof.
  intros Hs Hr Hd.
  assert (check_links (link (self w)) (link dep) = Ok tt) as Hc.
  { unfold check_links. revert Hd.
    destruct (link (self w)) as [[]|]; try done.
    by destruct (link dep) as [[]|]. }
  assert (repo (self (snd (merge dep w))) = repo (adopted dep (self w)))
    as Hm.
  { rewrite merge_run, Hc. cbn zeta.
    destruct (constraint_merge _ _) as [c|e]; cbn [snd]; [|done].
    by destruct (actualized_self
      (mkWorld (set_constraint c (adopted dep (self w))) (store w)
               (requests w))) as (_ & _ & -> & _). }
  assert (is_Some (dict_groups (self w)) →
          repo (self (snd (merge dep w))) = repo (self w)) as Hsome.
  { intros Hg. rewrite Hm. unfold adopted.
    rewrite Hs, Hd, Hr, bool_decide_eq_true_2 by done. cbn [negb andb].
    by rewrite andb_false_r. }
  split_and!.
  - intros Hn. rewrite Hm. unfold adopted.
    rewrite Hs, Hd, Hr, Hn, bool_decide_eq_false_2 by (by intros [??]).
    cbn [negb andb]. cbn zeta. by rewrite andb_false_r.
  - done.
  - intros w0 E0 ->. destruct (group_read_locks w0) as [Hl Hg].
    split; [done|]. apply Hsome. by apply Hg.
Qed.

(** C7, as amended: for two nodes whose links are git links pinned to
    revisions that differ, [merge] raises the [MergeError] with the fixed
    message "links point to different revisions" and changes nothing; with
    equal pins on the same server the checks of the links pass. *)
Theorem merge_different_revisions (dep : t) (w : World)
    (n1 n2 s1 s2 r1 r2 : string) :
  link (self w) = Some (GitRepo n1 s1 (Some r1)) →
  link dep = Some (GitRepo n2 s2 (Some r2)) →
  r1 ≠ "" → r2 ≠ "" →
  (r1 ≠ r2 →
   merge dep w =
   (Raise (MergeError "links point to different revisions"), w)) ∧
  (r1 = r2 → s1 = s2 →
   check_links (link (self w)) (link dep) = Ok tt).
Proof.
  intros E1 E2 H1 H2.
  assert (rev_truthy (Some r1) = true) as T1 by (by destruct r1).
  assert (rev_truthy (Some r2) = true) as T2 by (by destruct r2).
  split.
  - intros Hne. rewrite merge_run, E1, E2. unfold check_links.
    rewrite T1, T2. unfold rev_eqb.
    rewrite bool_decide_eq_false_2 by congruence. done.
  - intros -> ->. rewrite E1, E2. unfold check_links, rev_eqb.
    rewrite bool_decide_eq_true_2 by done.
    rewrite andb_false_r. by rewrite String.eqb_refl.
Qed.

(** [rex_hash] matches exactly the strings of seven lowercase hexadecimal
    digits. *)
Lemma is_hash_char_spec (c : ascii) :
  is_hash_char c =
  existsb (Ascii.eqb c) (list_ascii_of_string "0123456789abcdef").
Proof.
  destruct c as [[] [] [] [] [] [] [] []]; vm_compute; reflexivity.
Qed.

Lemma rex_hash_fullmatch_spec (s : string) :
  rex_hash_fullmatch s = seven_lowercase_hex s.
Proof.
  unfold rex_hash_fullmatch, seven_lowercase_hex. f_equal.
  induction (list_ascii_of_string s) as [|c l IH]; [done|].
  cbn [forallb]. by rewrite IH, is_hash_char_spec.
Qed.

(** C9: [from_params] returns a node unless the link is a git link and no
    source is given; the node it returns has the name of the link as its
    [raw_name] when the link has a non-empty name and the given [raw_name]
    consists of exactly seven lowercase hexadecimal digits, and the given
    [raw_name] in every other case. *)
Theorem from_params_raw_name (raw : string) (carg : ConstraintArg C Spec)
    (url : option string) (rp : option Repo)
    (ap : bool) (ex : list string) (mk : option string) :
  let result := from_params parse_link get_repo raw carg url rp ap ex mk in
  ((is_GitRepo (parse_link url) = false ∨ ∃ src spec, carg = WithSource src spec) →
   ∃ d, result = Ok d) ∧
  (∀ d, result = Ok d →
     raw_name d =
     match parse_link url with
     | Some l =>
         if Str.truthy (link_name l) && seven_lowercase_hex raw
         then link_name l else raw
     | None => raw
     end).
Proof.
  cbn zeta. unfold from_params. rewrite <- rex_hash_fullmatch_spec. split.
  - intros [Hg|(src & spec & ->)].
    + rewrite Hg. destruct carg; eauto.
    + eauto.
  - intros d. destruct carg as [src spec|c].
    + by intros [= <-].
    + destruct (is_GitRepo (parse_link url)); [done|]. by intros [= <-].
Qed.

(** [unapply], unlike [merge], drops the selection. *)
Lemma unapply_unlocks (name : string) (w : World) :
  fst (unapply name w) = Ok tt ∧
  locked (self (snd (unapply name w))) = false.
Proof.
  unfold unapply, mbind, M_bind, update_self. rewrite actualize_groups_run.
  unfold get_self.
  set (w1 := actualized _).
  destruct (locked (self w1)) eqn:El.
  - unfold unlock, mbind, M_bind, get_self, update_self. by rewrite El.
  - done.
Qed.

(** *** A node with no viable group *)

Lemma compat_then_group_unsatisfiable (w : World) :
  dict_group (self w) = None → selected w = None →
  ∃ w1 w2, compat w = (Ok false, w1) ∧ group w1 = (Ok None, w2).
Proof.
  intros E Hsel.
  destruct (grouped_self w) as (_ & _ & _ & _ & Hg & Hgs).
  exists (snd (grouped w)). eexists. split.
  - rewrite (compat_unlocked w E). f_equal. f_equal.
    unfold selected in Hsel.
    apply not_true_is_false. intros (a & Ha & Hne)%existsb_exists.
    by rewrite (find_none _ _ Hsel a Ha) in Hne.
  - rewrite group_first by by rewrite Hg.
    assert (grouped (snd (grouped w)) = (fst (grouped w), snd (grouped w)))
      as Hgg by (unfold grouped at 1; by rewrite Hgs).
    unfold selected. rewrite Hgg. cbn [fst snd].
    unfold selected in Hsel. by rewrite Hsel.
Qed.

Lemma group_then_compat_unsatisfiable (w : World) :
  dict_group (self w) = None → selected w = None →
  ∃ w1, group w = (Ok None, w1) ∧
        locked (self w1) = true ∧
        compat w1 =
        (Raise (AttributeError "'NoneType' object has no attribute 'empty'"),
         w1).
Proof.
  intros E Hsel. eexists. split; [|split].
  - by rewrite (group_first w E), Hsel.
  - done.
  - by rewrite (compat_locked _ None).
Qed.

End DependencyFacts.
End DependencyFacts.

(** * The scenarios *)

Module ScenarioFacts.

Import Dependency Run RunFacts DependencyFacts Scenario.

Example pkgA_from_params :
  from_params "pkgA" (WithSource "root" range_1_2) None (Some registry)
              false [] None = Ok pkgA.
Proof. reflexivity. Qed.

Example pkgA_abc123_from_params :
  from_params "pkgA" (WithSource "root" []) (Some url_abc123) None
              false [] None = Ok pkgA_abc123.
Proof. reflexivity. Qed.

Example pkgA_def456_from_params :
  from_params "pkgA" (WithSource "root" []) (Some url_def456) None
              false [] None = Ok pkgA_def456.
Proof. reflexivity. Qed.

Example pkgA_git_from_params :
  from_params "pkgA" (WithSource "root" []) (Some url_unpinned) None
              false [] None = Ok pkgA_git.
Proof. reflexivity. Qed.

Example pkgA_only_1_0_from_params :
  from_params "pkgA" (WithSource "root" range_only_1_0) None
              (Some registry_2_0) false [] None = Ok pkgA_only_1_0.
Proof. reflexivity. Qed.

(** C2, as stated, fails: reading [groups] on the node for pkgA with range
    [>=1.0,<2.0] does not produce exactly two groups. *)
Lemma pkgA_not_two_groups :
  ¬ ∃ gs w, groups (fresh pkgA) = (Ok gs, w) ∧ length gs = 2.
Proof.
  intros (gs & w & H & L). vm_compute in H. injection H as <- _.
  discriminate L.
Qed.

(** C2, as amended: the node built from the parameters name pkgA and range
    [>=1.0,<2.0] against the registry with releases 1.0, 1.5, 1.9 and 2.0
    has, once [groups] is read, exactly three groups: number 0 with release
    2.0 (fingerprint pkgB|pkgC), whose filtered releases are empty because
    the range excludes 2.0; number 1 with releases 1.5 and 1.9 (fingerprint
    pkgB); number 2 with release 1.0 (empty fingerprint).  Reading [group]
    selects the group that contains 1.5 and 1.9. *)
Theorem pkgA_groups :
  from_params "pkgA" (WithSource "root" range_1_2) None (Some registry)
              false [] None = Ok pkgA ∧
  fst (groups (fresh pkgA)) = Ok [0; 1; 2] ∧
  map summary (groups_objects (fresh pkgA)) =
    [(0, [[2; 0]], []);
     (1, [[1; 5]; [1; 9]], [[1; 5]; [1; 9]]);
     (2, [[1; 0]], [[1; 0]])] ∧
  map fingerprints (groups_objects (fresh pkgA)) =
    [["pkgB|pkgC"]; ["pkgB"; "pkgB"]; [""]] ∧
  fst (group (fresh pkgA)) = Ok (Some 1) ∧
  (summary <$> store (snd (group (fresh pkgA))) !! 1) =
    Some (1, [[1; 5]; [1; 9]], [[1; 5]; [1; 9]]).
Proof. repeat split; vm_compute; reflexivity. Qed.

(** The same holds in whatever order the registry lists its releases. *)
Lemma pkgA_groups_any_order (order : list Release) :
  order ≡ₚ [release [1; 0]; release [1; 5]; release [1; 9]; release [2; 0]] →
  three_groups_second_selected (pkgA_in order) = true.
Proof.
  intros H. symmetry in H. apply permutations_Permutation in H.
  apply list_elem_of_In in H. revert order H.
  apply (forallb_forall
           (λ order, three_groups_second_selected (pkgA_in order))).
  vm_compute. reflexivity.
Qed.

(** *** Merging into a locked node *)



(** What the merge above leaves: the selection is still group 1, of whose
    members only 1.5 and 1.9 pass both ranges. *)
Example merge_refilters_groups :
  map summary (store (snd (merge pkgA_lib pkgA_locked))) =
    [(0, [[2; 0]], []);
     (1, [[1; 5]; [1; 9]], [[1; 5]; [1; 9]]);
     (2, [[1; 0]], [])] ∧
  dict_group (self (snd (merge pkgA_lib pkgA_locked))) = Some (Some 1).
Proof. split; vm_compute; reflexivity. Qed.

(** *** Releases that list a dependency twice *)

(** C3, as stated, fails: releases 1.0 and 1.1 of [registry_twice] have
    equal dependency lists once these are sorted and deduplicated, and they
    are not in the same group. *)
Lemma duplicates_split_groups :
  ¬ (same_group (groups_objects (fresh pkgA_twice)) release_1_0 release_1_1 ↔
     sorted_deduplicated release_1_0 = sorted_deduplicated release_1_1).
Proof.
  intros [_ H]. specialize (H eq_refl).
  apply (same_group_groups_objects (fresh pkgA_twice)) in H.
  - vm_compute in H. discriminate H.
  - reflexivity.
  - vm_compute. apply list_elem_of_here.
  - vm_compute. apply list_elem_of_further, list_elem_of_here.
Qed.

(** The amended statement on releases 1.5 and 1.9 of the registry. *)
Lemma same_group_iff_same_fingerprint_witness :
  dict_groups (self (fresh pkgA)) = None ∧
  mkRelease "pkgA" [1; 5] (Some [req "pkgB"]) ∈ fst (fetched (fresh pkgA)) ∧
  mkRelease "pkgA" [1; 9] (Some [req "pkgB"]) ∈ fst (fetched (fresh pkgA)) ∧
  (same_group (groups_objects (fresh pkgA))
              (mkRelease "pkgA" [1; 5] (Some [req "pkgB"]))
              (mkRelease "pkgA" [1; 9] (Some [req "pkgB"])) ↔
   fingerprint (mkRelease "pkgA" [1; 5] (Some [req "pkgB"])) =
   fingerprint (mkRelease "pkgA" [1; 9] (Some [req "pkgB"]))) ∧
  (map requirement_str
       (dependencies_of (mkRelease "pkgA" [1; 5] (Some [req "pkgB"]))) ≡ₚ
   map requirement_str
       (dependencies_of (mkRelease "pkgA" [1; 9] (Some [req "pkgB"]))) →
   same_group (groups_objects (fresh pkgA))
              (mkRelease "pkgA" [1; 5] (Some [req "pkgB"]))
              (mkRelease "pkgA" [1; 9] (Some [req "pkgB"]))).
Proof.
  assert (mkRelease "pkgA" [1; 5] (Some [req "pkgB"])
            ∈ fst (fetched (fresh pkgA))) as H1.
  { vm_compute. apply list_elem_of_further, list_elem_of_here. }
  assert (mkRelease "pkgA" [1; 9] (Some [req "pkgB"])
            ∈ fst (fetched (fresh pkgA))) as H2.
  { vm_compute. do 2 apply list_elem_of_further. apply list_elem_of_here. }
  split; [reflexivity|]. split; [exact H1|]. split; [exact H2|].
  exact (same_group_iff_same_fingerprint (fresh pkgA) _ _ eq_refl H1 H2).
Defined.

(** *** An unpinned checkout meets the registry *)

Lemma checkout_is_not_registry : checkout ≠ registry.
Proof.
  intros H. apply (f_equal (λ r, get_releases r 0 "pkgA")) in H.
  vm_compute in H. discriminate H.
Qed.

(** C4, as stated, fails: the unpinned checkout has read its groups and
    selected none; [merge] with a registry node does not replace its
    repository. *)
Lemma merge_keeps_repo_of_unlocked_node :
  ¬ (is_GitRepo (link (self pkgA_git_grouped)) = true →
     rev_truthy (link_rev (link (self pkgA_git_grouped))) = false →
     is_GitRepo (link pkgA_lib) = false →
     locked (self pkgA_git_grouped) = false →
     repo (self (snd (merge pkgA_lib pkgA_git_grouped))) = repo pkgA_lib).
Proof.
  intros H. specialize (H eq_refl eq_refl eq_refl eq_refl).
  apply (f_equal (λ r, get_releases r 0 "pkgA")) in H.
  vm_compute in H. discriminate H.
Qed.

(** The amended statement on the unpinned checkout before it reads its
    groups, merged with a registry node. *)
Lemma merge_prefers_registry_before_groups_witness :
  is_GitRepo (link (self (fresh pkgA_git))) = true ∧
  rev_truthy (link_rev (link (self (fresh pkgA_git)))) = false ∧
  is_GitRepo (link pkgA_lib) = false ∧
  (dict_groups (self (fresh pkgA_git)) = None →
   repo (self (snd (merge pkgA_lib (fresh pkgA_git)))) = repo pkgA_lib) ∧
  (is_Some (dict_groups (self (fresh pkgA_git))) →
   repo (self (snd (merge pkgA_lib (fresh pkgA_git)))) =
   repo (self (fresh pkgA_git))) ∧
  (∀ w0 : World, dict_group (self w0) = None →
   fresh pkgA_git = snd (group w0) →
   locked (self (fresh pkgA_git)) = true ∧
   repo (self (snd (merge pkgA_lib (fresh pkgA_git)))) =
   repo (self (fresh pkgA_git))).
Proof.
  split; [reflexivity|]. split; [reflexivity|]. split; [reflexivity|].
  apply (merge_prefers_registry_before_groups pkgA_lib (fresh pkgA_git));
    reflexivity.
Defined.

(** Before the checkout has read its groups, the registry is preferred. *)
Example merge_prefers_registry :
  get_releases (repo (self (snd (merge pkgA_lib (fresh pkgA_git))))) 0 "pkgA" =
  get_releases registry 0 "pkgA".
Proof. vm_compute. reflexivity. Qed.

(** *** A range that no release satisfies *)

(** C5: on the node for pkgA with range [==1.0], of which the registry has
    release 2.0 only, reading [group] returns no group; after it [locked] is
    true, and what is cached is the absence of a group: the node is locked
    while no group has been chosen. *)
Theorem locked_without_group :
  fst (group (fresh pkgA_only_1_0)) = Ok None ∧
  locked (self (snd (group (fresh pkgA_only_1_0)))) = true ∧
  dict_group (self (snd (group (fresh pkgA_only_1_0)))) = Some None.
Proof. repeat split; vm_compute; reflexivity. Qed.

(** C6: on the same node, [compat] read first returns false and [group]
    read after it returns no group; but [group] read first returns no group
    and [compat] read after it raises [AttributeError]. *)
Theorem compat_after_group_raises :
  fst (compat (fresh pkgA_only_1_0)) = Ok false ∧
  fst (group (snd (compat (fresh pkgA_only_1_0)))) = Ok None ∧
  fst (group (fresh pkgA_only_1_0)) = Ok None ∧
  fst (compat (snd (group (fresh pkgA_only_1_0)))) =
    Raise (AttributeError "'NoneType' object has no attribute 'empty'").
Proof. repeat split; vm_compute; reflexivity. Qed.

(** *** A registry that changes *)

(** Once the node is locked, a second read of [group] returns the same
    object and makes no request, although the registry would now list
    release 3.0 in place of 1.0. *)
Example group_stable_on_changing_registry :
  let w1 := snd (group (fresh pkgA_changing)) in
  fst (group (fresh pkgA_changing)) = Ok (Some 0) ∧
  group w1 = (Ok (Some 0), w1) ∧
  get_releases (repo (self w1)) (requests w1) "pkgA" = [release [3; 0]] ∧
  dict_all_releases (self w1) = Some [mkRelease "pkgA" [1; 0] (Some [])].
Proof. repeat split; vm_compute; reflexivity. Qed.

(** *** Two pinned checkouts *)

(** C7, as stated, fails: the two nodes are pinned to abc123 and def456 on
    one server; [merge] raises a [MergeError] whose message does not name
    the two revisions. *)
Lemma merge_error_names_no_revision :
  ¬ ∃ msg,
      fst (merge pkgA_def456 (fresh pkgA_abc123)) = Raise (MergeError msg) ∧
      names_both msg "abc123" "def456" = true.
Proof.
  intros (msg & H & Hn). vm_compute in H. injection H as <-.
  vm_compute in Hn. discriminate Hn.
Qed.

(** The amended statement on the nodes pinned to abc123 and def456. *)
Lemma merge_different_revisions_witness :
  link (self (fresh pkgA_abc123)) =
    Some (GitRepo "pkgA" "git.example.org" (Some "abc123")) ∧
  link pkgA_def456 = Some (GitRepo "pkgA" "git.example.org" (Some "def456")) ∧
  "abc123" ≠ "" ∧ "def456" ≠ "" ∧ "abc123" ≠ "def456" ∧
  merge pkgA_def456 (fresh pkgA_abc123) =
    (Raise (MergeError "links point to different revisions"),
     fresh pkgA_abc123).
Proof.
  split; [reflexivity|]. split; [reflexivity|].
  split; [discriminate|]. split; [discriminate|]. split; [discriminate|].
  apply (merge_different_revisions pkgA_def456 (fresh pkgA_abc123)
           "pkgA" "pkgA" "git.example.org" "git.example.org"
           "abc123" "def456"); try reflexivity; discriminate.
Defined.

(** Equal pins on one server pass the checks. *)
Example merge_equal_revisions :
  check_links (link pkgA_abc123) (link pkgA_abc123) = Ok tt.
Proof. reflexivity. Qed.

(** *** Witnesses of the general statements *)

(** The order, the numbers and the determinism of the groups, on the node
    for pkgA. *)
Lemma groups_ordered_numbered_deterministic_witness :
  dict_groups (self (fresh pkgA)) = None ∧
  let rs := fst (fetched (fresh pkgA)) in
  let G := groups_objects (fresh pkgA) in
  (∃ gs, fst (groups (fresh pkgA)) = Ok gs ∧ length gs = length G) ∧
  map Group.number G = seq 0 (length G) ∧
  (∀ r, r ∈ rs ↔ ∃ g, g ∈ G ∧ r ∈ Group.all_releases g) ∧
  (∀ g1 g2 r, g1 ∈ G → g2 ∈ G →
              r ∈ Group.all_releases g1 → r ∈ Group.all_releases g2 →
              g1 = g2) ∧
  (∀ g, g ∈ G → Group.all_releases g ≠ [] ∧ NoDup (Group.all_releases g)) ∧
  (∀ g, g ∈ G →
        ∃ r, newest_in (Group.all_releases g) r ∧
             rel_version r = latest (Group.all_releases g)) ∧
  (∀ g s, g ∈ G → s ≡ₚ Group.all_releases g →
          latest s = latest (Group.all_releases g)) ∧
  StronglySorted
    (λ g1 g2, not_older (Group.all_releases g1) (Group.all_releases g2)) G ∧
  StronglySorted
    (λ g1 g2,
       newest_not_older (Group.all_releases g1) (Group.all_releases g2)) G ∧
  (∀ g0, head G = Some g0 →
         ∃ r, r ∈ Group.all_releases g0 ∧ newest_in rs r) ∧
  (∀ v : Version,
     filter (λ s, latest s = v) (map Group.all_releases G) =
     filter (λ s, latest s = v) (map snd (group_releases rs))) ∧
  map fst (group_releases rs) = first_met (map fingerprint rs) ∧
  (∀ w2 : World,
     dict_groups (self w2) = None → fst (fetched w2) = rs →
     map Group.shape (groups_objects w2) = map Group.shape G).
Proof.
  split; [reflexivity|].
  apply (groups_ordered_numbered_deterministic (fresh pkgA)). reflexivity.
Defined.

(** A name generated by pipenv is replaced by the name of the link. *)
Lemma from_params_raw_name_witness :
  ∃ d, from_params "1a2b3c4" (WithSource "root" []) (Some url_archive) None
                   false [] None = Ok d ∧
       raw_name d = "requests".
Proof.
  destruct (from_params_raw_name parse_link get_repo "1a2b3c4"
              (WithSource "root" []) (Some url_archive) None false [] None)
    as [H1 H2].
  destruct H1 as [d Hd]; [left; reflexivity|].
  exists d. split; [exact Hd|]. rewrite (H2 d Hd). reflexivity.
Defined.

(** A name that is no hash is kept, and so is a hash when there is no
    link. *)
Example from_params_keeps_raw_name :
  from_params "requests2" (WithSource "root" []) (Some url_archive)
              (Some registry) false [] None =
    Ok (Dependency.mk "requests2" (RangeConstraint.make "root" []) registry
          (Some (OtherLink "requests")) false [] None None None None) ∧
  from_params "1a2b3c4" (WithSource "root" []) None
              (Some registry) false [] None =
    Ok (Dependency.mk "1a2b3c4" (RangeConstraint.make "root" []) registry
          None false [] None None None None).
Proof. split; reflexivity. Qed.

(** The locked registry node for pkgA adopts the link and the repository of
    the checkout pinned to abc123. *)
Lemma merge_adopts_git_link_witness :
  is_GitRepo (link (self pkgA_locked)) = false ∧
  is_GitRepo (link pkgA_abc123) = true ∧
  link (self (snd (merge pkgA_abc123 pkgA_locked))) = link pkgA_abc123 ∧
  repo (self (snd (merge pkgA_abc123 pkgA_locked))) = repo pkgA_abc123.
Proof.
  split; [reflexivity|]. split; [reflexivity|].
  apply (merge_adopts_git_link pkgA_abc123 pkgA_locked); reflexivity.
Defined.

End ScenarioFacts.

(** * Further facts *)

Module MoreFacts.
Section MoreFacts.
Import Dependency Run RunFacts DependencyFacts Notions.
Context {C Spec : Type} `{!ConstraintOps C Spec}.

Local Abbreviation World := (Dependency.World C).
Local Abbreviation t := (Dependency.t C).
Local Abbreviation M := (Dependency.M C).

Local Arguments _actualize_groups_in : simpl never.
Local Arguments _actualize_groups : simpl never.
Local Arguments groups : simpl never.
Local Arguments group : simpl never.
Local Arguments all_releases : simpl never.
Local Arguments _fetch_releases_deps : simpl never.
Local Arguments make_groups : simpl never.

(** *** Fetching *)

Lemma fetch_deps_requests (rp : Repo) (n : nat) (rs : list Release) :
  snd (fetch_deps rp n rs) = n + unresolved rs.
Proof.
  revert n. induction rs as [|r rs IH]; intros n; simpl;
    [unfold unresolved; simpl; lia|].
  unfold unresolved in *. simpl.
  destruct (rel_dependencies r) as [ds|] eqn:E.
  - specialize (IH n). destruct (fetch_deps rp n rs) as [out n'].
    simpl in *. done.
  - specialize (IH (S n)). destruct (fetch_deps rp (S n) rs) as [out n'].
    simpl in *. lia.
Qed.



(** X2: running [_fetch_releases_deps] a second time changes nothing and
    sends no request. *)
Theorem fetch_releases_deps_twice (w : World) :
  (_fetch_releases_deps ≫= λ _, _fetch_releases_deps) w =
  _fetch_releases_deps w.
Proof.
  rewrite (bind_ok _ _ _ _ _ (fetch_releases_deps_run w)).
  set (w1 := mkWorld (set_dict_all_releases (Some (fst (fetched w))) (self w))
                     (store w) (snd (fetched w))).
  rewrite (fetch_releases_deps_run w1), (fetch_releases_deps_run w).
  assert (listed w1 = (fst (fetched w), snd (fetched w))) as Hl by done.
  assert (fetched w1 = (fst (fetched w), snd (fetched w))) as Hf.
  { unfold fetched at 1. rewrite Hl. cbn [fst snd].
    change (repo (self w1)) with (repo (self w)).
    by rewrite fetch_deps_known by apply fetch_deps_resolved. }
  by rewrite Hf.
Qed.

(** *** Reading [groups] *)

Lemma grouped_again (w : World) :
  grouped (snd (grouped w)) = (fst (grouped w), snd (grouped w)).
Proof.
  destruct (grouped_self w) as (_ & _ & _ & _ & _ & E).
  unfold grouped at 1. by rewrite E.
Qed.

(** X3: [groups] is computed once: a second read gives the same groups and
    the same world as the first.  A read of cached groups sends no
    request; the first read sends one request per release whose
    dependencies are not known, after listing the releases. *)
Theorem groups_read_once (w : World) :
  (groups ≫= λ _, groups) w = groups w ∧
  requests (snd (groups w)) =
    match dict_groups (self w) with
    | Some _ => requests w
    | None => snd (listed w) + unresolved (fst (listed w))
    end.
Proof.
  split.
  - rewrite (bind_ok _ _ _ _ _ (groups_grouped w)).
    by rewrite (groups_grouped (snd (grouped w))), grouped_again, groups_grouped.
  - rewrite groups_run. destruct (dict_groups (self w)); [done|].
    cbn [snd with_groups requests]. unfold fetched.
    apply fetch_deps_requests.
Qed.

(** *** The groups partition the releases *)

(** X4: the groups of a first read partition the releases of the node:
    every release is in a group, the members of a group are releases of
    the node, two groups that share a member are one group, and no group
    is without members or lists a member twice. *)
Theorem groups_partition (w : World) :
  dict_groups (self w) = None →
  let G := groups_objects w in
  let rs := fst (fetched w) in
  (∀ r, r ∈ rs ↔ ∃ g, g ∈ G ∧ r ∈ Group.all_releases g) ∧
  (∀ g1 g2 r, g1 ∈ G → g2 ∈ G →
              r ∈ Group.all_releases g1 → r ∈ Group.all_releases g2 →
              g1 = g2) ∧
  (∀ g, g ∈ G → Group.all_releases g ≠ [] ∧ NoDup (Group.all_releases g)).
Proof. apply groups_objects_partition. Qed.

(** *** The filtered releases follow the constraint *)

Lemma refilter_twice c g : refilter c (refilter c g) = refilter c g.
Proof. done. Qed.

Lemma refiltered_lookup c gs (h : list Group.t) (a : nat) :
  refiltered c gs h !! a =
  if bool_decide (a ∈ gs) then refilter c <$> h !! a else h !! a.
Proof.
  revert h. induction gs as [|x gs IH]; intros h; [done|].
  change (refiltered c (x :: gs) h)
    with (refiltered c gs (alter (refilter c) x h)).
  rewrite IH, list_lookup_alter.
  destruct (bool_decide (a ∈ gs)) eqn:Egs.
  - apply bool_decide_eq_true in Egs.
    rewrite bool_decide_eq_true_2 by (by apply list_elem_of_further).
    destruct (decide _) as [->|Hx]; [|done]. by destruct (h !! a).
  - apply bool_decide_eq_false in Egs.
    destruct (decide _) as [->|Hx].
    + rewrite bool_decide_eq_true_2; [done|apply list_elem_of_here].
    + rewrite bool_decide_eq_false_2; [done|].
      intros [->|Hin]%elem_of_cons; done.
Qed.

Lemma actualized_actual (w : World) :
  is_Some (dict_groups (self (actualized w))) ∧ actual (actualized w).
Proof.
  unfold actualized.
  set (w1 := match dict_groups (self w) with Some _ => w | None => with_groups w end).
  assert (is_Some (dict_groups (self w1))) as [gs Egs].
  { unfold w1. destruct (dict_groups (self w)) eqn:E.
    - rewrite E. by eexists.
    - by eexists. }
  cbn zeta. rewrite Egs. cbn [default]. split; [by exists gs|].
  intros gs' a g. cbn [self store]. rewrite Egs. intros [= <-] Ha.
  rewrite refiltered_lookup, bool_decide_eq_true_2 by done.
  by intros (g0 & _ & ->)%fmap_Some.
Qed.

(** X5: after the first read of [groups], every group shows exactly those
    of its members that pass the constraint of the node. *)
Theorem groups_filtered (w : World) :
  dict_groups (self w) = None → actual (snd (groups w)).
Proof.
  intros E. rewrite (groups_first w E).
  intros gs a g. unfold with_groups. simpl. intros [= <-].
  unfold new_addrs. rewrite elem_of_seq. intros [Hlo Hhi].
  rewrite lookup_app_r by lia.
  intros (g0 & -> & _)%list_lookup_fmap_Some_1. done.
Qed.

(** X6: after a merge that succeeds, the constraint of the node is the
    merged one, the groups are cached, and every group shows exactly those
    of its members that pass the merged constraint. *)
Theorem merge_refilters (dep : t) (w : World) :
  fst (merge dep w) = Ok tt →
  let w' := snd (merge dep w) in
  constraint_merge (constraint (self w)) (constraint dep)
    = Ok (constraint (self w')) ∧
  is_Some (dict_groups (self w')) ∧
  actual w'.
Proof.
  rewrite merge_run.
  assert (constraint (adopted dep (self w)) = constraint (self w)) as Hc.
  { unfold adopted. destruct (_ && _ && _ && _); cbn zeta;
      by destruct (_ && _). }
  destruct (check_links _ _) as [[]|e]; [|done]. cbn zeta. rewrite Hc.
  destruct (constraint_merge _ _) as [c|e]; [|done]. intros _. cbn [snd].
  split_and!.
  - by destruct (actualized_self (mkWorld (set_constraint c (adopted dep (self w)))
                                    (store w) (requests w))) as (_ & -> & _).
  - apply actualized_actual.
  - apply actualized_actual.
Qed.

(** X7: on a locked node, [compat] after a successful merge says whether a
    member of the selected group passes the merged constraint, and changes
    nothing. *)
Theorem compat_after_merge (dep : t) (w : World) gs (a : nat) g :
  dict_group (self w) = Some (Some a) →
  dict_groups (self w) = Some gs → a ∈ gs → store w !! a = Some g →
  fst (merge dep w) = Ok tt →
  let w' := snd (merge dep w) in
  compat w' =
  (Ok (negb (bool_decide
               (constraint_filter (constraint (self w'))
                                  (Group.all_releases g) = []))), w').
Proof.
  intros Eg Egs Ha Hg Hok w'.
  rewrite (compat_locked w' (Some a))
    by (subst w'; by rewrite merge_dict_group).
  f_equal. f_equal. f_equal. subst w'. revert Hok. rewrite merge_run.
  destruct (check_links _ _) as [[]|e]; [|done]. cbn zeta.
  destruct (constraint_merge _ _) as [c|e]; [|done]. intros _. cbn [snd].
  rewrite (actualized_groups_cached _ gs)
    by (cbn [self]; by rewrite <- Egs, <- (adopted_dict_groups dep (self w))).
  cbn [self store constraint set_constraint]. unfold empty_at.
  rewrite refiltered_lookup, (bool_decide_eq_true_2 (a ∈ gs)), Hg by done.
  cbn. unfold Group.empty. cbn.
  destruct (constraint_filter c (Group.all_releases g)); [|done].
  by rewrite bool_decide_eq_true_2.
Qed.

(** X8: when [unapply] returns, the node is unlocked, its constraint is the
    one that [constraint.unapply(name)] leaves, the groups are cached and
    every group shows exactly those of its members that pass that
    constraint. *)
Theorem unapply_refilters (name : string) (w : World) :
  fst (unapply name w) = Ok tt →
  let w' := snd (unapply name w) in
  locked (self w') = false ∧
  constraint (self w') = constraint_unapply name (constraint (self w)) ∧
  is_Some (dict_groups (self w')) ∧
  actual w'.
Proof.
  intros _. cbn zeta. destruct (unapply_unlocks name w) as [_ Hl].
  split; [done|]. clear Hl.
  unfold unapply, mbind, M_bind, update_self. rewrite actualize_groups_run.
  unfold get_self.
  set (w0 := mkWorld _ (store w) (requests w)).
  destruct (actualized_actual w0) as [Hs Ha].
  destruct (actualized_self w0) as (_ & Hc & _).
  destruct (locked (self (actualized w0))) eqn:El.
  - unfold unlock, mbind, M_bind, get_self, update_self. rewrite El.
    cbn [snd self]. split_and!; [done..|].
    intros gs a g. apply Ha.
  - cbn [snd]. by split_and!.
Qed.

(** *** Selection *)

Lemma find_first {A} (f : A → bool) (l : list A) :
  match List.find f l with
  | Some x => ∃ l1 l2, l = l1 ++ x :: l2 ∧ f x = true ∧
                       Forall (λ y, f y = false) l1
  | None => Forall (λ y, f y = false) l
  end.
Proof.
  induction l as [|y l IH]; simpl; [constructor|].
  destruct (f y) eqn:E.
  - exists [], l. by repeat split.
  - destruct (List.find f l) as [x|].
    + destruct IH as (l1 & l2 & -> & Hx & Hl1).
      exists (y :: l1), l2. repeat split; [done|]. by constructor.
    + by constructor.
Qed.

(** X9: when the first read of [group] returns, what it returns is cached
    as the selection and is the first group, in the order of [groups], that
    is not empty: every group before it is empty; it is [None] when every
    group is empty. *)
Theorem group_selects_first_viable (w : World) (r : option addr) :
  dict_group (self w) = None →
  fst (group w) = Ok r →
  let w' := snd (group w) in
  dict_group (self w') = Some r ∧
  ∃ gs, dict_groups (self w') = Some gs ∧
        match r with
        | Some a =>
            ∃ l1 l2, gs = l1 ++ a :: l2 ∧
                     empty_at (store w') a = false ∧
                     all_empty (store w') l1
        | None => all_empty (store w') gs
        end.
Proof.
  intros E. rewrite (group_first w E). cbn [fst snd self store].
  intros [= <-]. split; [done|].
  exists (fst (grouped w)). split.
  { change (dict_groups (self (snd (grouped w))) = Some (fst (grouped w))).
    by destruct (grouped_self w) as (_ & _ & _ & _ & _ & ->). }
  unfold selected, all_empty.
  pose proof (find_first (λ a, negb (empty_at (store (snd (grouped w))) a))
                         (fst (grouped w))) as H.
  destruct (List.find _ _) as [a|].
  - destruct H as (l1 & l2 & -> & Ha & Hl1). exists l1, l2.
    split_and!; [done|by apply negb_true_iff|].
    eapply Forall_impl; [exact Hl1|]. intros y Hy. by apply negb_false_iff.
  - eapply Forall_impl; [exact H|]. intros y Hy. by apply negb_false_iff.
Qed.

(** X10: on an unlocked node [compat] is true exactly when [group] would
    select a group; it leaves the node unlocked, and reading [group]
    after it is as reading [group] at once. *)
Theorem compat_agrees_with_group (w : World) :
  dict_group (self w) = None →
  (∃ b, fst (compat w) = Ok b ∧
        (b = true ↔ ∃ a, fst (group w) = Ok (Some a))) ∧
  locked (self (snd (compat w))) = false ∧
  (compat ≫= λ _, group) w = group w.
Proof.
  intros E. rewrite (compat_unlocked w E), (group_first w E).
  cbn [fst snd].
  destruct (grouped_self w) as (_ & _ & _ & _ & Hg & _).
  split_and!.
  - eexists. split; [done|]. unfold selected.
    rewrite existsb_exists. split.
    + intros (a & Ha & Hv).
      destruct (List.find _ _) as [a'|] eqn:Ef; [by exists a'|].
      by rewrite (find_none _ _ Ef a Ha) in Hv.
    + intros (a & [= Ha]). apply find_some in Ha. by exists a.
  - unfold locked. rewrite Hg, E. by apply bool_decide_eq_false_2; intros [??].
  - rewrite (bind_ok _ _ _ _ _ (compat_unlocked w E)).
    rewrite group_first by (by rewrite Hg).
    unfold selected. by rewrite !grouped_again.
Qed.

(** *** [unlock] *)

(** [unlock] raises [KeyError] on a node that is not locked and changes
    nothing; on a locked node it drops the selection and nothing else. *)
Lemma unlock_spec (w : World) :
  unlock w =
  if locked (self w)
  then (Ok tt, mkWorld (set_dict_group None (self w)) (store w) (requests w))
  else (Raise (KeyError "group"), w).
Proof.
  unfold unlock, mbind, M_bind, get_self, update_self, raise.
  by destruct (locked (self w)).
Qed.

(** X11: on an unlocked node, reading [group], unlocking and reading
    [group] again gives the first selection and the world of the first
    read: nothing is fetched or grouped again. *)
Theorem group_unlock_group (w : World) :
  dict_group (self w) = None →
  (group ≫= λ _, unlock ≫= λ _, group) w = group w.
Proof.
  intros E.
  rewrite (bind_ok _ _ _ _ _ (group_first w E)).
  set (w1 := mkWorld _ _ _).
  assert (unlock w1 = (Ok tt, snd (grouped w))) as Hu.
  { rewrite unlock_spec. unfold w1. cbn [self store requests].
    unfold locked. cbn. f_equal.
    destruct (grouped_self w) as (_ & _ & _ & _ & Hg & _).
    rewrite E in Hg. destruct (grouped w) as [gs [d h n]]. cbn in *.
    f_equal. destruct d; cbn in *. by subst. }
  rewrite (bind_ok _ _ _ _ _ Hu).
  destruct (grouped_self w) as (_ & _ & _ & _ & Hg & _).
  rewrite group_first by (by rewrite Hg).
  rewrite (group_first w E). unfold selected. by rewrite !grouped_again.
Qed.

(** *** [merge] and two servers *)

(** X12: merging two nodes with git links on servers that differ raises
    [MergeError] and changes nothing.  The revisions are checked before the
    servers: the message is the one of the revisions when both links have
    a revision and the two differ, and the one of the servers otherwise. *)
Theorem merge_different_servers (dep : t) (w : World)
    (n1 n2 s1 s2 : string) (r1 r2 : option string) :
  link (self w) = Some (GitRepo n1 s1 r1) →
  link dep = Some (GitRepo n2 s2 r2) →
  s1 ≠ s2 →
  merge dep w =
  (Raise (MergeError
            (if rev_truthy r1 && rev_truthy r2 && negb (bool_decide (r1 = r2))
             then "links point to different revisions"
             else "links point to different servers")), w).
Proof.
  intros E1 E2 Hs. rewrite merge_run, E1, E2. unfold check_links, rev_eqb.
  apply String.eqb_neq in Hs.
  destruct (rev_truthy r1 && rev_truthy r2 && negb (bool_decide (r1 = r2)));
    [done|]. by rewrite Hs.
Qed.

(** X13: two calls of [unlock] in a row raise [KeyError], whatever the
    node; so does [unlock] after [unapply], which has unlocked the node
    itself. *)
Theorem unlock_again_raises (name : string) (w : World) :
  fst ((unlock ≫= λ _, unlock) w) = Raise (KeyError "group") ∧
  fst ((unapply name ≫= λ _, unlock) w) = Raise (KeyError "group").
Proof.
  split.
  - unfold mbind, M_bind. rewrite unlock_spec.
    destruct (locked (self w)) eqn:El; [|done].
    by rewrite unlock_spec.
  - destruct (unapply_unlocks name w) as [Hok Hl].
    unfold mbind, M_bind. destruct (unapply name w) as [r w'].
    cbn in Hok, Hl. subst r. by rewrite unlock_spec, Hl.
Qed.

(** *** The two constructors *)

Section Constructors.

Variable parse_link : option string -> option Link.
Variable get_repo : option Link -> Repo.

(** X14: [from_requirement] builds an unlocked node with the name of the
    requirement.  [from_params], given the parts of the requirement, builds
    the same node when the name does not look like a hash; otherwise the two
    nodes can differ in the name only, which [from_params] takes from the
    link. *)
Theorem from_requirement_from_params (source : string)
    (req : Req Spec) (url : option string) :
  let d := from_requirement parse_link get_repo source req url in
  raw_name d = rq_name req ∧
  locked d = false ∧
  ∃ d', from_params parse_link get_repo (rq_name req)
          (WithSource source (rq_specifier req))
          (url_or url (rq_url req)) None false (rq_extras req) (rq_marker req)
        = Ok d' ∧
        (rex_hash_fullmatch (rq_name req) = false → d' = d) ∧
        (raw_name d' ≠ rq_name req →
         ∃ l, link d = Some l ∧ raw_name d' = link_name l) ∧
        constraint d' = constraint d ∧ repo d' = repo d ∧ link d' = link d ∧
        extras d' = extras d ∧ marker d' = marker d.
Proof.
  cbn zeta. split; [done|]. split; [done|].
  unfold from_params, from_requirement. eexists. split; [done|].
  cbn [constraint repo link extras marker raw_name from_option id].
  split_and!; try done.
  - intros Hh. destruct (parse_link _) as [l|]; [|done].
    by rewrite Hh, andb_false_r.
  - intros Hne. destruct (parse_link _) as [l|]; [|done].
    exists l. split; [done|].
    by destruct (Str.truthy (link_name l) && rex_hash_fullmatch (rq_name req)).
Qed.

End Constructors.

End MoreFacts.
End MoreFacts.

Module AppDirsFacts.
Section AppDirsFacts.
Import AppDirs.

Context {Path : Type}.
Variable joinpath : Path -> string -> Path.

Local Notation "p // name" := (joinpath p name) (at level 40, left associativity).
Local Abbreviation Env := (AppDirs.Env Path).
Local Abbreviation Caches := (AppDirs.Caches Path).
Local Abbreviation Cache := (AppDirs.Cache Path).

(** X15: [get_data_dir] computes either [path / app] for a directory [path]
    that exists, or what [appdirs] says; the latter only when neither
    [~/.local/share] nor [~/Library/Application Support] exists. *)
Theorem data_dir_parent_exists (e : Env) (app : string) :
  (∃ p, path_exists e p = true ∧ data_dir joinpath e app = p // app) ∨
  (data_dir joinpath e app = user_data_dir e app ∧
   path_exists e (home e // ".local" // "share") = false ∧
   path_exists e (home e // "Library" // "Application Support") = false).
Proof.
  unfold data_dir.
  destruct (environ e _) as [p|]; [destruct (path_exists e p) eqn:Ep|];
    [left; by exists p|..].
  all: destruct (path_exists e (home e // ".local" // "share")) eqn:E1;
    [left; by eexists|].
  all: destruct (path_exists e (home e // "Library" // "Application Support"))
         eqn:E2; [left; by eexists|].
  all: by right.
Qed.

Lemma cache_find_touch c p (k : Cache) c' :
  cache_find c' (cache_touch c p k) =
  if bool_decide (c = c') then Some p else cache_find c' k.
Proof.
  unfold cache_touch. simpl. case_bool_decide as E; [done|].
  induction k as [|[c0 p0] k IH]; simpl; [done|].
  destruct (decide (c0 = c)) as [->|Hne].
  - rewrite bool_decide_eq_true_2 by done.
    by rewrite bool_decide_eq_false_2 by done.
  - rewrite (bool_decide_eq_false_2 (c0 = c)) by done. simpl.
    by rewrite IH.
Qed.

Lemma cache_remove_length c p (k : Cache) :
  cache_find c k = Some p → S (length (cache_remove c k)) = length k.
Proof.
  induction k as [|[c0 p0] k IH]; simpl; [done|].
  case_bool_decide; [done|]. intros Ef. simpl. by rewrite IH.
Qed.

(** After a call, its result is the first entry of the cache. *)
Lemma get_data_dir_head c (e : Env) (k : Caches) :
  ∃ rest, data_cache (snd (get_data_dir joinpath c e k)) =
          (c, fst (get_data_dir joinpath c e k)) :: rest ∧
          cache_cache (snd (get_data_dir joinpath c e k)) = cache_cache k.
Proof.
  unfold get_data_dir. destruct (cache_find c (data_cache k)) as [p|]; simpl.
  - by eexists.
  - by eexists.
Qed.

(** X16: [get_data_dir] answers a call as it answered the same call
    before when at most one other call was made in between, whatever has
    become of the machine. *)
Theorem get_data_dir_remembered (c c' : Call) (e1 e2 e3 : Env) (k0 : Caches) :
  let '(p1, k1) := get_data_dir joinpath c e1 k0 in
  let '(_, k2) := get_data_dir joinpath c' e2 k1 in
  fst (get_data_dir joinpath c e3 k2) = p1.
Proof.
  destruct (get_data_dir_head c e1 k0) as (rest & Hd & _).
  destruct (get_data_dir joinpath c e1 k0) as [p1 k1]. cbn [fst snd] in Hd.
  assert (cache_find c (data_cache (snd (get_data_dir joinpath c' e2 k1)))
          = Some p1) as Hf.
  { unfold get_data_dir. rewrite Hd.
    destruct (cache_find c' ((c, p1) :: rest)) as [p'|] eqn:E'; cbn [snd data_cache].
    - rewrite cache_find_touch. case_bool_decide as Ec; [|simpl].
      + subst c'. simpl in E'. rewrite bool_decide_eq_true_2 in E' by done.
        congruence.
      + by rewrite bool_decide_eq_true_2.
    - simpl in E'. case_bool_decide as Ec; [done|].
      unfold cache_store. simpl.
      rewrite bool_decide_eq_false_2 by congruence.
      by rewrite bool_decide_eq_true_2. }
  destruct (get_data_dir joinpath c' e2 k1) as [p2 k2]. cbn [snd] in Hf.
  unfold get_data_dir. by rewrite Hf.
Qed.

(** X17: after two calls that differ from it and from each other, a call
    of [get_data_dir] is computed again, on the machine as it then is.
    Calls differ when their arguments differ or are passed differently. *)
Theorem get_data_dir_forgotten (c1 c2 c3 : Call) (e1 e2 e3 e4 : Env)
    (k0 : Caches) :
  (length (data_cache k0) ≤ 2)%nat →
  c2 ≠ c1 → c3 ≠ c1 → c3 ≠ c2 →
  let '(_, k1) := get_data_dir joinpath c1 e1 k0 in
  let '(_, k2) := get_data_dir joinpath c2 e2 k1 in
  let '(_, k3) := get_data_dir joinpath c3 e3 k2 in
  fst (get_data_dir joinpath c1 e4 k3) = data_dir joinpath e4 (app_of c1).
Proof.
  intros Hlen H21 H31 H32.
  assert (∀ c e (k : Caches), (length (data_cache k) ≤ 2)%nat →
            (length (data_cache (snd (get_data_dir joinpath c e k))) ≤ 2)%nat)
    as Hl.
  { intros c e k Hk. unfold get_data_dir.
    destruct (cache_find c (data_cache k)) as [p|] eqn:Ef;
      cbn [snd data_cache].
    - unfold cache_touch. cbn [length].
      by rewrite (cache_remove_length c p (data_cache k) Ef).
    - unfold cache_store. rewrite length_take. lia. }
  destruct (get_data_dir_head c1 e1 k0) as (r1 & Hd1 & _).
  specialize (Hl c1 e1 k0 Hlen).
  destruct (get_data_dir joinpath c1 e1 k0) as [p1 k1]. cbn [fst snd] in *.
  destruct (get_data_dir_head c2 e2 k1) as (r2 & Hd2 & _).
  assert (∃ p1', data_cache (snd (get_data_dir joinpath c2 e2 k1)) =
                 [(c2, fst (get_data_dir joinpath c2 e2 k1)); (c1, p1')])
    as (p1' & Hk2).
  { exists p1. revert Hd2. unfold get_data_dir. rewrite Hd1.
    rewrite Hd1 in Hl.
    destruct (cache_find c2 ((c1, p1) :: r1)) as [p'|] eqn:E'; cbn [fst snd data_cache].
    - intros _. unfold cache_touch. simpl.
      rewrite bool_decide_eq_false_2 by congruence.
      simpl in E'. rewrite bool_decide_eq_false_2 in E' by congruence.
      destruct r1 as [|[c0 p0] [|? ?]]; simpl in *; try lia; [done|].
      case_bool_decide; [done|congruence].
    - intros _. unfold cache_store. by simpl. }
  destruct (get_data_dir joinpath c2 e2 k1) as [p2 k2]. cbn [fst snd] in *.
  assert (data_cache (snd (get_data_dir joinpath c3 e3 k2)) =
          [(c3, fst (get_data_dir joinpath c3 e3 k2)); (c2, p2)]) as Hk3.
  { unfold get_data_dir. rewrite Hk2. simpl.
    by rewrite !bool_decide_eq_false_2 by congruence. }
  destruct (get_data_dir joinpath c3 e3 k2) as [p3 k3]. cbn [fst snd] in *.
  unfold get_data_dir. rewrite Hk3. simpl.
  by rewrite !bool_decide_eq_false_2 by congruence.
Qed.

(** X18: when [get_cache_dir] computes its result and none of its
    candidates exists, the result is the [cache] directory of what
    [get_data_dir(app=app)] returns right after, whatever has become of the
    machine. *)
Theorem cache_dir_under_data_dir (c : Call) (e e' : Env) (k : Caches) :
  cache_find c (cache_cache k) = None →
  no_cache_candidate joinpath e →
  let '(r, k1) := get_cache_dir joinpath c e k in
  r = fst (get_data_dir joinpath (Keyword (app_of c)) e' k1) // "cache".
Proof.
  intros Hmiss (Henv & H1 & H2).
  unfold get_cache_dir. rewrite Hmiss. unfold cache_dir.
  assert (match environ e (if IS_WINDOWS e then "TEMP" else "XDG_CACHE_HOME")
          with
          | Some path => if path_exists e path then Some (path // app_of c)
                         else None
          | None => None
          end = None) as ->.
  { destruct (environ e _) as [p|]; [|done]. by rewrite Henv. }
  cbn zeta. rewrite H1, H2.
  destruct (get_data_dir_head (Keyword (app_of c)) e k) as (rest & Hd & _).
  destruct (get_data_dir joinpath (Keyword (app_of c)) e k) as [p k1].
  cbn [fst snd] in *. f_equal.
  unfold get_data_dir. cbn [data_cache]. rewrite Hd. simpl.
  by rewrite bool_decide_eq_true_2.
Qed.

(** X19: the body of [get_cache_dir] returns either [path / app] for a
    directory [path] that exists, leaving the caches alone, or, when none
    of its candidates exists, the [cache] directory of
    [get_data_dir(app=app)]. *)
Theorem cache_dir_parent_exists (e : Env) (app : string) (k : Caches) :
  (∃ p, path_exists e p = true ∧
        cache_dir joinpath e app k = (p // app, k)) ∨
  (no_cache_candidate joinpath e ∧
   cache_dir joinpath e app k =
     (fst (get_data_dir joinpath (Keyword app) e k) // "cache",
      snd (get_data_dir joinpath (Keyword app) e k))).
Proof.
  unfold cache_dir, no_cache_candidate.
  destruct (environ e _) as [p|]; [destruct (path_exists e p) eqn:Ep|];
    [left; by exists p|..].
  all: destruct (path_exists e (home e // ".cache")) eqn:E1;
    [left; by eexists|].
  all: destruct (path_exists e (home e // "Library" // "Caches")) eqn:E2;
    [left; by eexists|].
  all: right; split; [done|].
  all: by destruct (get_data_dir joinpath (Keyword app) e k).
Qed.

End AppDirsFacts.
End AppDirsFacts.

Module SetupPyFacts.
Import SetupPy.

(** *** [strip] *)

Lemma lstrip_chars_clean l : starts_clean (lstrip_chars l).
Proof.
  induction l as [|c l IH]; simpl; [done|].
  destruct (isspace c) eqn:E; [done|]. by simpl.
Qed.

Lemma lstrip_chars_id l : starts_clean l → lstrip_chars l = l.
Proof. destruct l as [|c l]; simpl; [done|]. by intros ->. Qed.

Lemma lstrip_chars_suffix l : ∃ p, l = p ++ lstrip_chars l.
Proof.
  induction l as [|c l [p IH]]; simpl; [by exists []|].
  destruct (isspace c).
  - exists (c :: p). simpl. by rewrite <- IH.
  - by exists [].
Qed.

Lemma strip_chars_clean l :
  starts_clean (strip_chars l) ∧ starts_clean (rev (strip_chars l)).
Proof.
  unfold strip_chars. rewrite rev_involutive.
  split; [|apply lstrip_chars_clean].
  pose proof (lstrip_chars_clean l) as Hm.
  destruct (lstrip_chars_suffix (rev (lstrip_chars l))) as [p Hp].
  set (m := lstrip_chars l) in *. set (r := lstrip_chars (rev m)) in *.
  assert (m = rev r ++ rev p) as Em.
  { rewrite <- rev_app_distr, <- Hp. by rewrite rev_involutive. }
  destruct (rev r) as [|c r']; [done|].
  rewrite Em in Hm. done.
Qed.

Lemma strip_chars_id l :
  starts_clean l → starts_clean (rev l) → strip_chars l = l.
Proof.
  intros H1 H2. unfold strip_chars.
  rewrite (lstrip_chars_id l H1), (lstrip_chars_id (rev l) H2).
  apply rev_involutive.
Qed.

Lemma strip_strip s : strip (strip s) = strip s.
Proof.
  unfold strip. rewrite list_ascii_of_string_of_list_ascii. f_equal.
  destruct (strip_chars_clean (list_ascii_of_string s)).
  by apply strip_chars_id.
Qed.

(** X20: what [_get] returns has no white space at either end.  A value of
    the metadata that is not empty hides the attribute of the distribution,
    also when that value is UNKNOWN and [_get] returns the empty string;
    the attribute is used when the metadata has no value or an empty
    one. *)
Theorem get_stripped (msg : Distribution) (name : string) :
  strip (_get msg name) = _get msg name ∧
  (∀ v, metadata msg name = Some v → v ≠ "" →
        _get msg name = if String.eqb v "UNKNOWN" then "" else strip v) ∧
  (falsy (metadata msg name) = true →
   ∀ v, attribute msg name = Some v →
        _get msg name =
        if String.eqb v "UNKNOWN" then "" else strip v).
Proof.
  split_and!.
  - unfold _get. destruct (falsy (metadata msg name)).
    + destruct (attribute msg name) as [v|]; [|done].
      destruct (negb (Str.truthy v)); [done|].
      destruct (String.eqb v "UNKNOWN"); [done|]. apply strip_strip.
    + destruct (metadata msg name) as [v|]; [|done].
      destruct (negb (Str.truthy v)); [done|].
      destruct (String.eqb v "UNKNOWN"); [done|]. apply strip_strip.
  - intros v E Hv. unfold _get. rewrite E. simpl.
    destruct v as [|c v]; [done|]. done.
  - intros Hf v E. unfold _get. rewrite Hf, E.
    destruct v as [|c v]; [done|]. done.
Qed.

(** *** [_get_list] *)

Lemma get_list_filter (msg : Distribution) (name : string) :
  _get_list msg name =
  List.filter kept (default [] (list_attribute msg name)).
Proof.
  unfold _get_list. by destruct (list_attribute msg name) as [[|v l]|].
Qed.

Lemma filter_all {A} (f : A → bool) (l : list A) :
  (∀ x, In x l → f x = true) → List.filter f l = l.
Proof.
  induction l as [|x l IH]; simpl; [done|]. intros H.
  rewrite (H x) by (by left). f_equal. apply IH. intros y Hy. apply H.
  by right.
Qed.

Lemma filter_sublist {A} (f : A → bool) (l : list A) :
  List.filter f l `sublist_of` l.
Proof.
  induction l as [|x l IH]; simpl; [constructor|].
  destruct (f x); by constructor.
Qed.

(** X21: [_get_list] keeps, in their order and as they are, the values
    that are not UNKNOWN and not blank; applied to its own result it
    changes nothing. *)
Theorem get_list_spec (msg msg' : Distribution) (name : string) :
  (∀ v, v ∈ _get_list msg name ↔
        v ∈ default [] (list_attribute msg name) ∧
        v ≠ "UNKNOWN" ∧ strip v ≠ "") ∧
  _get_list msg name `sublist_of` default [] (list_attribute msg name) ∧
  (list_attribute msg' name = Some (_get_list msg name) →
   _get_list msg' name = _get_list msg name).
Proof.
  split_and!.
  - intros v. rewrite get_list_filter, !list_elem_of_In, filter_In.
    unfold kept. rewrite andb_true_iff, negb_true_iff, String.eqb_neq.
    assert (Str.truthy (strip v) = true ↔ strip v ≠ "") as ->; [|done].
    by destruct (strip v).
  - rewrite get_list_filter. apply filter_sublist.
  - intros E. rewrite (get_list_filter msg'), E. cbn [default].
    apply filter_all. intros x Hx. rewrite get_list_filter in Hx.
    by apply filter_In in Hx as [_ ?].
Qed.

(** *** [can_parse] *)

Lemma append_cons (c : ascii) (a b : string) :
  (String c a ++ b)%string = String c (a ++ b)%string.
Proof. done. Qed.

Lemma append_nil (b : string) : ("" ++ b)%string = b.
Proof. done. Qed.

Lemma prefix_iff (n s : string) :
  String.prefix n s = true ↔ ∃ q, s = (n ++ q)%string.
Proof.
  revert s. induction n as [|c n IH]; intros s.
  - destruct s; split; eauto.
  - destruct s as [|c' s].
    + split; [done|]. by intros [q ?].
    + cbn [String.prefix]. destruct (Ascii.ascii_dec c c') as [->|Hne].
      * rewrite IH. split; intros [q Hq]; exists q;
          rewrite append_cons in *; congruence.
      * split; [done|]. intros [q Hq]. rewrite append_cons in Hq.
        congruence.
Qed.

Lemma contains_iff (n s : string) :
  Str.contains n s = true ↔ ∃ p q, s = (p ++ n ++ q)%string.
Proof.
  induction s as [|c s IH]; cbn [Str.contains].
  - destruct (String.prefix n "") eqn:E.
    + apply prefix_iff in E as [q Hq]. split; [|done]. intros _.
      by exists "", q.
    + split; [done|]. intros (p & q & Hpq).
      destruct p; [|by rewrite append_cons in Hpq].
      rewrite append_nil in Hpq.
      assert (String.prefix n "" = true) as E'
        by (apply prefix_iff; by exists q).
      congruence.
  - destruct (String.prefix n (String c s)) eqn:E.
    + apply prefix_iff in E as [q Hq]. split; [|done]. intros _.
      by exists "", q.
    + rewrite IH. split.
      * intros (p & q & ->). by exists (String c p), q.
      * intros (p & q & Hpq). destruct p as [|c' p].
        -- rewrite append_nil in Hpq.
           assert (String.prefix n (String c s) = true) as E'
             by (apply prefix_iff; by exists q).
           congruence.
        -- rewrite append_cons in Hpq. injection Hpq as -> ->.
           by exists p, q.
Qed.

Lemma append_assoc (a b c : string) :
  ((a ++ b) ++ c = a ++ (b ++ c))%string.
Proof.
  induction a as [|x a IH]; [done|]. by rewrite !append_cons, IH.
Qed.

Lemma contains_around (n s before after : string) :
  Str.contains n s = true →
  Str.contains n (before ++ s ++ after)%string = true.
Proof.
  rewrite !contains_iff. intros (p & q & ->).
  exists (before ++ p)%string, (q ++ after)%string.
  by rewrite !append_assoc.
Qed.

(** X22: a file that [can_parse] accepts is still accepted when text is
    added before and after its content; a file named setup.py is accepted
    whatever its content. *)
Theorem can_parse_monotone (path_name content before after : string) :
  can_parse path_name (Some content) = true →
  can_parse path_name (Some (before ++ content ++ after)%string) = true ∧
  (∀ c, can_parse "setup.py" c = true).
Proof.
  intros H. split; [|done]. revert H. unfold can_parse.
  destruct (String.eqb path_name "setup.py"); [done|].
  destruct (Str.truthy content) eqn:Et; [|done]. cbn [negb].
  assert (Str.truthy (before ++ content ++ after)%string = true) as ->.
  { destruct before; [|done]. rewrite append_nil. by destruct content. }
  cbn [negb].
  destruct (Str.contains "setuptools" content) eqn:E1.
  - rewrite (contains_around _ _ before after E1). cbn [negb andb].
    apply contains_around.
  - destruct (Str.contains "distutils" content) eqn:E2; [|done].
    rewrite (contains_around _ _ before after E2).
    cbn [negb andb]. rewrite andb_false_r. apply contains_around.
Qed.

(** *** [dumps] *)

Lemma dict_get_dict_append k v d k' :
  dict_get k' (dict_append k v d) =
  if String.eqb k k' then Some (default [] (dict_get k d) ++ [v])
  else dict_get k' d.
Proof.
  induction d as [|[k0 vs] d IH]; simpl.
  - by destruct (String.eqb k k').
  - destruct (String.eqb_spec k0 k) as [->|Hne]; simpl.
    + by destruct (String.eqb k k').
    + rewrite IH. destruct (String.eqb_spec k0 k') as [->|Hne']; [|done].
      by rewrite (proj2 (String.eqb_neq k k')) by congruence.
Qed.

Lemma collect_from_get d pairs k :
  dict_get k (collect_from d pairs) =
  if is_nil (values_of k pairs) then dict_get k d
  else Some (default [] (dict_get k d) ++ values_of k pairs).
Proof.
  revert d. induction pairs as [|[k0 v] pairs IH]; intros d; [done|].
  change (collect_from d ((k0, v) :: pairs))
    with (collect_from (dict_append k0 v d) pairs).
  rewrite IH, dict_get_dict_append. unfold values_of. simpl.
  destruct (String.eqb_spec k0 k) as [->|Hne]; simpl.
  - destruct (map snd _) as [|x l]; simpl; [done|].
    by rewrite <- app_assoc.
  - done.
Qed.

Lemma collect_get pairs k :
  dict_get k (collect pairs) =
  if is_nil (values_of k pairs) then None else Some (values_of k pairs).
Proof. apply (collect_from_get [] pairs k). Qed.

Lemma values_of_app k p1 p2 :
  values_of k (p1 ++ p2) = values_of k p1 ++ values_of k p2.
Proof. unfold values_of. by rewrite List.filter_app, List.map_app. Qed.

Lemma values_of_envs env (v : string) (es : list string) :
  NoDup es →
  values_of env (map (λ e, (e, v)) es) =
  if bool_decide (env ∈ es) then [v] else [].
Proof.
  induction 1 as [|e es He Hes IH]; simpl; [done|].
  unfold values_of in *. simpl.
  destruct (String.eqb_spec e env) as [->|Hne]; simpl.
  - rewrite IH, bool_decide_eq_false_2 by done.
    by rewrite bool_decide_eq_true_2 by apply list_elem_of_here.
  - rewrite IH. case_bool_decide as Hin.
    + by rewrite bool_decide_eq_true_2 by (by apply list_elem_of_further).
    + rewrite bool_decide_eq_false_2; [done|].
      intros [->|?]%elem_of_cons; done.
Qed.

Lemma values_of_extras_pairs env reqs :
  Forall (λ req, NoDup (envs req)) reqs →
  values_of env (extras_pairs reqs) = map _format_req (with_env env reqs).
Proof.
  induction 1 as [|req reqs Hreq _ IH]; [done|].
  unfold extras_pairs, with_env in *. simpl.
  rewrite values_of_app, IH, (values_of_envs _ _ _ Hreq).
  by destruct (bool_decide (env ∈ envs req)).
Qed.

Ltac chunk :=
  cbn [flat_map map fst snd app];
  repeat match goal with
  | |- context [if ?b then _ else _] => destruct b
  | |- context [match ?x with _ => _ end] => destruct x
  end; simpl;
  repeat (apply sublist_skip || apply sublist_cons || apply sublist_nil).

Lemma setup_keywords_NoDup : NoDup setup_keywords.
Proof.
  apply (bool_decide_unpack (NoDup setup_keywords)). vm_compute. exact I.
Qed.

(** The keyword arguments of [dumps] are among [setup_keywords], in that
    order. *)
Lemma dumps_content_keys (reqs : list Requirement) (project : Project) :
  map fst (dumps_content reqs project) `sublist_of` setup_keywords.
Proof.
  unfold dumps_content. rewrite !List.map_app.
  change setup_keywords with
    (["name"; "version"] ++ ["description"] ++ ["python_requires"]
     ++ ["url"; "download_url"] ++ ["project_urls"]
     ++ ["author"; "author_email"] ++ ["maintainer"; "maintainer_email"]
     ++ ["license"] ++ ["keywords"] ++ ["classifiers"] ++ ["platforms"]
     ++ ["entry_points"]
     ++ ["packages"; "package_data"; "install_requires"]
     ++ ["extras_require"]).
  repeat (apply sublist_app; [chunk|]). chunk.
Qed.

Lemma dumps_content_keys_NoDup (reqs : list Requirement) (project : Project) :
  NoDup (map fst (dumps_content reqs project)).
Proof.
  eapply sublist_NoDup; [apply setup_keywords_NoDup|apply dumps_content_keys].
Qed.

(** What [dumps] hands to [FormatCode]: the preamble, then the call of
    [setup] with [long_description=readme] and the rendered [content]. *)
Lemma dumps_rendered (repr : Value → string) (FormatCode : string → string)
    (reqs : list Requirement) (project : Project) :
  dumps repr FormatCode reqs project =
  FormatCode
    (preamble (readme_source project)
     ++ setup_call ("long_description=readme"
                    :: map (format_item repr) (dumps_content reqs project)))
    %string.
Proof.
  unfold dumps, TEMPLATE, preamble, setup_call, Str.join. f_equal.
  assert (∃ x l, map (format_item repr) (dumps_content reqs project) = x :: l)
    as (x & l & ->) by (unfold dumps_content; simpl; by eexists _, _).
  change (String.concat ?sep ("long_description=readme" :: x :: l))
    with ("long_description=readme" ++ sep ++ String.concat sep (x :: l))%string.
  rewrite !append_assoc. reflexivity.
Qed.

(** X23: what [dumps] hands to the formatter is the preamble of the
    template followed by one call of [setup], whose keyword arguments are
    [long_description=readme] and then [name=repr(value)] for each entry
    of [content].  The names of these arguments are distinct and come in
    one fixed order; [long_description], [name], [version], [packages],
    [package_data] and [install_requires] are always among them. *)
Theorem dumps_keywords (repr : Value → string) (FormatCode : string → string)
    (reqs : list Requirement) (project : Project) :
  let content := dumps_content reqs project in
  let keys := "long_description" :: map fst content in
  dumps repr FormatCode reqs project =
    FormatCode
      (preamble (readme_source project)
       ++ setup_call ("long_description=readme"
                      :: map (format_item repr) content))%string ∧
  keys `sublist_of` "long_description" :: setup_keywords ∧
  NoDup keys ∧
  ["long_description"; "name"; "version"; "packages"; "package_data";
   "install_requires"] `sublist_of` keys.
Proof.
  cbn zeta. split; [apply dumps_rendered|].
  split; [apply sublist_skip, dumps_content_keys|]. split.
  { apply NoDup_cons. split; [|apply dumps_content_keys_NoDup].
    intros Hin.
    pose proof (elem_of_sublist _ _ _ Hin (dumps_content_keys reqs project))
      as Hk.
    revert Hk. apply (bool_decide_unpack (_ ∉ _)). vm_compute. exact I. }
  apply sublist_skip.
  unfold dumps_content. rewrite !List.map_app.
  change ["name"; "version"; "packages"; "package_data"; "install_requires"]
    with (["name"; "version"]
          ++ ["packages"; "package_data"; "install_requires"]).
  apply sublist_app; [done|].
  do 11 apply sublist_inserts_l.
  by apply sublist_inserts_r.
Qed.

Lemma dict_append_not_nil k v d : dict_append k v d ≠ [].
Proof. destruct d as [|[k0 vs] d]; simpl; [done|]. by destruct (String.eqb k0 k). Qed.

Lemma collect_from_not_nil d pairs : d ≠ [] → collect_from d pairs ≠ [].
Proof.
  revert d. induction pairs as [|[k v] pairs IH]; intros d Hd; [done|].
  apply IH, dict_append_not_nil.
Qed.

Lemma collect_nil pairs : is_nil (collect pairs) = is_nil pairs.
Proof.
  destruct pairs as [|[k v] pairs]; [done|].
  pose proof (collect_from_not_nil (dict_append k v []) pairs
                (dict_append_not_nil k v [])) as H.
  change (collect ((k, v) :: pairs))
    with (collect_from (dict_append k v []) pairs).
  by destruct (collect_from _ _).
Qed.

Lemma extras_pairs_nil reqs :
  is_nil (extras_pairs reqs) = false ↔ ∃ req e, req ∈ reqs ∧ e ∈ envs req.
Proof.
  induction reqs as [|req reqs IH].
  - split; [done|]. by intros (? & ? & ?%not_elem_of_nil & _).
  - unfold extras_pairs in *. simpl. destruct (envs req) as [|e es] eqn:E.
    + simpl. rewrite IH. split.
      * intros (r & e & Hr & He). exists r, e. split; [|done].
        by apply list_elem_of_further.
      * intros (r & e & [->|Hr]%elem_of_cons & He).
        -- rewrite E in He. by apply not_elem_of_nil in He.
        -- by exists r, e.
    + simpl. split; [|done]. intros _. exists req, e.
      split; [apply list_elem_of_here|]. rewrite E. apply list_elem_of_here.
Qed.

(** The keyword arguments but the last, [extras_require]. *)
Lemma dumps_content_front (reqs : list Requirement) (project : Project) :
  ∃ front,
    dumps_content reqs project =
      front ++
      (if is_nil (collect (extras_pairs reqs)) then []
       else [("extras_require", VDictOfLists (collect (extras_pairs reqs)))]) ∧
    "extras_require" ∉ map fst front.
Proof.
  unfold dumps_content. rewrite !app_assoc. eexists. split; [done|].
  intros Hin.
  assert (∀ l, l `sublist_of` removelast setup_keywords →
               "extras_require" ∉ l) as Hnot.
  { intros l Hl Hx. apply (elem_of_sublist _ _ _ Hx) in Hl.
    revert Hl. apply (bool_decide_unpack (_ ∉ _)). vm_compute. exact I. }
  revert Hin. apply Hnot.
  rewrite <- !app_assoc, !List.map_app.
  change (removelast setup_keywords) with
    (["name"; "version"] ++ ["description"] ++ ["python_requires"]
     ++ ["url"; "download_url"] ++ ["project_urls"]
     ++ ["author"; "author_email"] ++ ["maintainer"; "maintainer_email"]
     ++ ["license"] ++ ["keywords"] ++ ["classifiers"] ++ ["platforms"]
     ++ ["entry_points"]
     ++ ["packages"; "package_data"; "install_requires"]).
  repeat (apply sublist_app; [chunk|]). chunk.
Qed.

(** X24: [extras_require] maps an environment to the formatted
    requirements that carry it, in the order of the requirements, and has
    no entry for an environment that no requirement carries; it is written
    when some requirement carries an environment, and only then. *)
Theorem dumps_extras_require (reqs : list Requirement) (project : Project)
    (env : string) :
  Forall (λ req, NoDup (envs req)) reqs →
  dict_get env (collect (extras_pairs reqs)) =
    (if is_nil (with_env env reqs) then None
     else Some (map _format_req (with_env env reqs))) ∧
  ((∃ v, ("extras_require", v) ∈ dumps_content reqs project) ↔
   ∃ req e, req ∈ reqs ∧ e ∈ envs req) ∧
  (∀ v, ("extras_require", v) ∈ dumps_content reqs project →
        v = VDictOfLists (collect (extras_pairs reqs))).
Proof.
  intros Hs.
  destruct (dumps_content_front reqs project) as (front & -> & Hfront).
  assert (∀ v, ("extras_require", v) ∉ front) as Hv.
  { intros v Hin. apply Hfront. apply list_elem_of_fmap.
    by exists ("extras_require", v). }
  split_and!.
  - rewrite collect_get, (values_of_extras_pairs env reqs Hs).
    by destruct (with_env env reqs).
  - rewrite <- extras_pairs_nil, <- collect_nil.
    destruct (is_nil (collect (extras_pairs reqs))).
    + split; [|done]. intros (v & [Hin|Hin]%elem_of_app).
      * by apply Hv in Hin.
      * by apply not_elem_of_nil in Hin.
    + split; [done|]. intros _. eexists. apply elem_of_app. right.
      apply list_elem_of_here.
  - intros v [Hin|Hin]%elem_of_app; [by apply Hv in Hin|].
    destruct (is_nil (collect (extras_pairs reqs)));
      [by apply not_elem_of_nil in Hin|].
    apply list_elem_of_singleton in Hin. congruence.
Qed.

Lemma pairs_unique {V} (l : list (string * V)) k v1 v2 :
  NoDup (map fst l) → (k, v1) ∈ l → (k, v2) ∈ l → v1 = v2.
Proof.
  induction l as [|[k' v'] l IH]; simpl.
  - by intros _ ?%not_elem_of_nil.
  - intros [Hk Hnd]%NoDup_cons H1 H2.
    apply elem_of_cons in H1 as [E1|H1]; apply elem_of_cons in H2 as [E2|H2].
    + congruence.
    + injection E1 as -> ->. destruct Hk. apply list_elem_of_fmap.
      by exists (k', v2).
    + injection E2 as -> ->. destruct Hk. apply list_elem_of_fmap.
      by exists (k', v1).
    + by apply IH.
Qed.

Lemma values_of_map {A} (key : A → string) (val : A → string) (l : list A) k :
  values_of k (map (λ x, (key x, val x)) l) =
  map val (List.filter (λ x, String.eqb (key x) k) l).
Proof.
  induction l as [|x l IH]; [done|]. unfold values_of in *. simpl.
  destruct (String.eqb (key x) k); simpl; by rewrite IH.
Qed.

(** X25: [entry_points] maps a group to the entry points of that group, as
    strings and in their order; it is written, once, when the project has
    an entry point, and only then. *)
Theorem dumps_entry_points (reqs : list Requirement) (project : Project)
    (group : string) :
  let table :=
    collect (map (λ ep, (ep_group ep, ep_str ep)) (entrypoints project)) in
  let chosen :=
    List.filter (λ ep, String.eqb (ep_group ep) group) (entrypoints project) in
  dict_get group table =
    (if is_nil chosen then None else Some (map ep_str chosen)) ∧
  (entrypoints project ≠ [] →
   ∀ v, ("entry_points", v) ∈ dumps_content reqs project ↔
        v = VDictOfLists table) ∧
  (entrypoints project = [] →
   "entry_points" ∉ map fst (dumps_content reqs project)).
Proof.
  cbn zeta. split_and!.
  - rewrite collect_get, values_of_map.
    by destruct (List.filter _ _).
  - intros Hne.
    assert (("entry_points",
             VDictOfLists
               (collect (map (λ ep, (ep_group ep, ep_str ep))
                             (entrypoints project))))
              ∈ dumps_content reqs project) as Hin.
    { unfold dumps_content.
      do 11 (apply elem_of_app; right). apply elem_of_app. left.
      destruct (entrypoints project); [done|]. apply list_elem_of_here. }
    intros v. split; [|by intros ->].
    intros Hv. eapply (pairs_unique (dumps_content reqs project));
      [apply dumps_content_keys_NoDup|exact Hv|exact Hin].
  - intros E Hin.
    assert (map fst (dumps_content reqs project) `sublist_of`
              List.filter (λ k, negb (String.eqb k "entry_points"))
                          setup_keywords) as Hsub.
    { unfold dumps_content. rewrite E. cbn [is_nil]. rewrite !List.map_app.
      change (List.filter (λ k, negb (String.eqb k "entry_points"))
                          setup_keywords) with
        (["name"; "version"] ++ ["description"] ++ ["python_requires"]
         ++ ["url"; "download_url"] ++ ["project_urls"]
         ++ ["author"; "author_email"] ++ ["maintainer"; "maintainer_email"]
         ++ ["license"] ++ ["keywords"] ++ ["classifiers"] ++ ["platforms"]
         ++ []
         ++ ["packages"; "package_data"; "install_requires"]
         ++ ["extras_require"]).
      repeat (apply sublist_app; [chunk|]). chunk. }
    apply (elem_of_sublist _ _ _ Hin) in Hsub.
    revert Hsub. apply (bool_decide_unpack (_ ∉ _)). vm_compute. exact I.
Qed.

End SetupPyFacts.

(** ** The scenarios *)

Module CaseFacts.

Import Dependency Run Notions Scenario Cases.


(** The four releases of pkgA cost one request for the list and four for
    the dependencies. *)
Example fetch_releases_deps_requests :
  requests (snd (_fetch_releases_deps (fresh pkgA))) = 5.
Proof. reflexivity. Qed.

Lemma unapply_refilters_witness :
  fst (unapply "root" pkgA_locked) = Ok tt ∧
  let w' := snd (unapply "root" pkgA_locked) in
  locked (self w') = false ∧
  constraint (self w')
    = constraint_unapply "root" (constraint (self pkgA_locked)) ∧
  is_Some (dict_groups (self w')) ∧
  actual w'.
Proof.
  split; [reflexivity|].
  apply (MoreFacts.unapply_refilters "root" pkgA_locked); reflexivity.
Defined.

Lemma groups_partition_witness :
  dict_groups (self (fresh pkgA)) = None ∧
  let G := groups_objects (fresh pkgA) in
  let rs := fst (fetched (fresh pkgA)) in
  (∀ r, r ∈ rs ↔ ∃ g, g ∈ G ∧ r ∈ Group.all_releases g) ∧
  (∀ g1 g2 r, g1 ∈ G → g2 ∈ G →
              r ∈ Group.all_releases g1 → r ∈ Group.all_releases g2 →
              g1 = g2) ∧
  (∀ g, g ∈ G → Group.all_releases g ≠ [] ∧ NoDup (Group.all_releases g)).
Proof.
  split; [reflexivity|].
  apply (MoreFacts.groups_partition (fresh pkgA)); reflexivity.
Defined.

Lemma groups_filtered_witness :
  dict_groups (self (fresh pkgA)) = None ∧
  actual (snd (groups (fresh pkgA))).
Proof.
  split; [reflexivity|].
  apply (MoreFacts.groups_filtered (fresh pkgA)); reflexivity.
Defined.

Lemma merge_refilters_witness :
  fst (merge pkgA_lib pkgA_locked) = Ok tt ∧
  let w' := snd (merge pkgA_lib pkgA_locked) in
  constraint_merge (constraint (self pkgA_locked)) (constraint pkgA_lib)
    = Ok (constraint (self w')) ∧
  is_Some (dict_groups (self w')) ∧
  actual w'.
Proof.
  split; [reflexivity|].
  apply (MoreFacts.merge_refilters pkgA_lib pkgA_locked); reflexivity.
Defined.

Lemma compat_after_merge_witness :
  dict_group (self pkgA_locked) = Some (Some 1) ∧
  dict_groups (self pkgA_locked) = Some [0; 1; 2] ∧
  1 ∈ [0; 1; 2] ∧
  store pkgA_locked !! 1 = Some group_1 ∧
  fst (merge pkgA_lib pkgA_locked) = Ok tt ∧
  let w' := snd (merge pkgA_lib pkgA_locked) in
  compat w' =
  (Ok (negb (bool_decide
               (constraint_filter (constraint (self w'))
                                  (Group.all_releases group_1) = []))), w').
Proof.
  assert (1 ∈ [0; 1; 2]) as Hin by (apply (bool_decide_unpack _); reflexivity).
  split; [reflexivity|]. split; [reflexivity|]. split; [exact Hin|].
  split; [reflexivity|]. split; [reflexivity|].
  apply (MoreFacts.compat_after_merge pkgA_lib pkgA_locked [0; 1; 2] 1 group_1);
    [reflexivity|reflexivity|exact Hin|reflexivity|reflexivity].
Defined.

Lemma group_selects_first_viable_witness :
  dict_group (self (fresh pkgA)) = None ∧
  fst (group (fresh pkgA)) = Ok (Some 1) ∧
  let w' := snd (group (fresh pkgA)) in
  dict_group (self w') = Some (Some 1) ∧
  ∃ gs, dict_groups (self w') = Some gs ∧
        ∃ l1 l2, gs = l1 ++ 1 :: l2 ∧
                 empty_at (store w') 1 = false ∧
                 all_empty (store w') l1.
Proof.
  split; [reflexivity|]. split; [reflexivity|].
  apply (MoreFacts.group_selects_first_viable (fresh pkgA) (Some 1));
    reflexivity.
Defined.

Lemma compat_agrees_with_group_witness :
  dict_group (self (fresh pkgA)) = None ∧
  (∃ b, fst (compat (fresh pkgA)) = Ok b ∧
        (b = true ↔ ∃ a, fst (group (fresh pkgA)) = Ok (Some a))) ∧
  locked (self (snd (compat (fresh pkgA)))) = false ∧
  (compat ≫= λ _, group) (fresh pkgA) = group (fresh pkgA).
Proof.
  split; [reflexivity|].
  apply (MoreFacts.compat_agrees_with_group (fresh pkgA)); reflexivity.
Defined.

Lemma group_unlock_group_witness :
  dict_group (self (fresh pkgA)) = None ∧
  (group ≫= λ _, unlock ≫= λ _, group) (fresh pkgA) = group (fresh pkgA).
Proof.
  split; [reflexivity|].
  apply (MoreFacts.group_unlock_group (fresh pkgA)); reflexivity.
Defined.

Lemma merge_different_servers_witness :
  link (self (fresh pkgA_abc123))
    = Some (GitRepo "pkgA" "git.example.org" (Some "abc123")) ∧
  link pkgA_mirror_def456
    = Some (GitRepo "pkgA" "mirror.example.org" (Some "def456")) ∧
  "git.example.org" ≠ "mirror.example.org" ∧
  merge pkgA_mirror_def456 (fresh pkgA_abc123) =
  (Raise (MergeError
            (if rev_truthy (Some "abc123") && rev_truthy (Some "def456")
                && negb (bool_decide (Some "abc123" = Some "def456"))
             then "links point to different revisions"
             else "links point to different servers")), fresh pkgA_abc123).
Proof.
  assert ("git.example.org" ≠ "mirror.example.org") as Hne by discriminate.
  split; [reflexivity|]. split; [reflexivity|]. split; [exact Hne|].
  apply (MoreFacts.merge_different_servers pkgA_mirror_def456
           (fresh pkgA_abc123)
           "pkgA" "pkgA" "git.example.org" "mirror.example.org"
           (Some "abc123") (Some "def456")); [reflexivity|reflexivity|exact Hne].
Defined.

(** Two servers and two revisions: the revisions are reported.  Two
    servers and one revision: the servers are. *)
Example merge_reports_revisions_first :
  fst (merge pkgA_mirror_def456 (fresh pkgA_abc123))
    = Raise (MergeError "links point to different revisions") ∧
  fst (merge pkgA_mirror (fresh pkgA_abc123))
    = Raise (MergeError "links point to different servers").
Proof. split; reflexivity. Qed.

Lemma from_requirement_from_params_witness :
  rex_hash_fullmatch (rq_name req_hash) = true ∧
  let d := from_requirement "root" req_hash None in
  raw_name d = "abcdef1" ∧
  locked d = false ∧
  ∃ d', from_params "abcdef1" (WithSource "root" []) (Some url_unpinned)
          None false [] None = Ok d' ∧
        (rex_hash_fullmatch "abcdef1" = false → d' = d) ∧
        (raw_name d' ≠ "abcdef1" →
         ∃ l, link d = Some l ∧ raw_name d' = link_name l) ∧
        constraint d' = constraint d ∧ repo d' = repo d ∧ link d' = link d ∧
        extras d' = extras d ∧ marker d' = marker d.
Proof.
  split; [reflexivity|].
  apply (MoreFacts.from_requirement_from_params parse_link get_repo
           "root" req_hash None).
Defined.

(** With the name of pipenv the two constructors disagree: [from_params]
    names the node after the link. *)
Example constructors_disagree :
  raw_name (from_requirement "root" req_hash None) = "abcdef1" ∧
  ∃ d', from_params "abcdef1" (WithSource "root" []) (Some url_unpinned)
          None false [] None = Ok d' ∧
        raw_name d' = "pkgA".
Proof. split; [reflexivity|]. eexists. split; reflexivity. Qed.

End CaseFacts.

Module MachineFacts.

Import AppDirs Cases.

Local Notation "p // name" := (joinpath p name) (at level 40, left associativity).

Lemma get_data_dir_forgotten_witness :
  (length (data_cache (no_caches (Path := Path))) ≤ 2)%nat ∧
  Positional "dephell" ≠ NoArgs ∧
  Keyword "dephell" ≠ NoArgs ∧
  Keyword "dephell" ≠ Positional "dephell" ∧
  let '(_, k1) := get_data_dir joinpath NoArgs linux no_caches in
  let '(_, k2) := get_data_dir joinpath (Positional "dephell") linux k1 in
  let '(_, k3) := get_data_dir joinpath (Keyword "dephell") linux k2 in
  fst (get_data_dir joinpath NoArgs bare k3)
    = data_dir joinpath bare (app_of NoArgs).
Proof.
  assert (Positional "dephell" ≠ NoArgs) as H21 by discriminate.
  assert (Keyword "dephell" ≠ NoArgs) as H31 by discriminate.
  assert (Keyword "dephell" ≠ Positional "dephell") as H32 by discriminate.
  split; [simpl; lia|]. split; [exact H21|]. split; [exact H31|].
  split; [exact H32|].
  apply (AppDirsFacts.get_data_dir_forgotten joinpath
           NoArgs (Positional "dephell") (Keyword "dephell")
           linux linux linux bare no_caches);
    [simpl; lia|exact H21|exact H31|exact H32].
Defined.

(** The three ways to ask for the data directory of dephell are three
    entries of the cache: after them the first answer is gone, and the
    fourth call sees that [~/.local/share] is gone as well. *)
Example data_dir_computed_again :
  let '(p1, k1) := get_data_dir joinpath NoArgs linux no_caches in
  let '(_, k2) := get_data_dir joinpath (Positional "dephell") linux k1 in
  let '(_, k3) := get_data_dir joinpath (Keyword "dephell") linux k2 in
  p1 = ["home"; "user"; ".local"; "share"; "dephell"] ∧
  fst (get_data_dir joinpath NoArgs bare k3)
    = ["home"; "user"; ".appdirs"; "dephell"].
Proof. split; reflexivity. Qed.

Lemma cache_dir_under_data_dir_witness :
  cache_find NoArgs (cache_cache (no_caches (Path := Path))) = None ∧
  no_cache_candidate joinpath linux ∧
  let '(r, k1) := get_cache_dir joinpath NoArgs linux no_caches in
  r = fst (get_data_dir joinpath (Keyword (app_of NoArgs)) bare k1) // "cache".
Proof.
  assert (no_cache_candidate joinpath linux) as Hno
    by (repeat split; reflexivity).
  split; [reflexivity|]. split; [exact Hno|].
  apply (AppDirsFacts.cache_dir_under_data_dir joinpath NoArgs linux bare
           no_caches); [reflexivity|exact Hno].
Defined.

(** On the Linux machine the cache directory is under the data directory. *)
Example cache_dir_linux :
  fst (get_cache_dir joinpath NoArgs linux no_caches)
    = ["home"; "user"; ".local"; "share"; "dephell"; "cache"].
Proof. reflexivity. Qed.

End MachineFacts.

Module ProjectFacts.

Import SetupPy Cases.

Lemma can_parse_monotone_witness :
  can_parse "build.py" (Some "from setuptools import setup; setup(") = true ∧
  can_parse "build.py"
    (Some ("# coding: utf-8; "
           ++ "from setuptools import setup; setup(" ++ ")")%string) = true ∧
  (∀ c, can_parse "setup.py" c = true).
Proof.
  split; [reflexivity|].
  apply (SetupPyFacts.can_parse_monotone "build.py"
           "from setuptools import setup; setup(" "# coding: utf-8; " ")");
    reflexivity.
Defined.

Lemma get_stripped_witness :
  metadata dist "license" = Some "UNKNOWN" ∧
  strip (_get dist "license") = _get dist "license" ∧
  (∀ v, metadata dist "license" = Some v → v ≠ "" →
        _get dist "license" = if String.eqb v "UNKNOWN" then "" else strip v) ∧
  (falsy (metadata dist "license") = true →
   ∀ v, attribute dist "license" = Some v →
        _get dist "license" =
        if String.eqb v "UNKNOWN" then "" else strip v).
Proof.
  split; [reflexivity|].
  apply (SetupPyFacts.get_stripped dist "license").
Defined.

(** The licence of the distribution is hidden by the UNKNOWN of its
    metadata, while its URL is read and stripped. *)
Example get_license_hidden :
  _get dist "license" = "" ∧ _get dist "url" = "https://example.org" ∧
  _get dist "name" = "pkgA".
Proof. repeat split; reflexivity. Qed.

Lemma get_list_spec_witness :
  list_attribute dist_again "keywords" = Some (_get_list dist "keywords") ∧
  (∀ v, v ∈ _get_list dist "keywords" ↔
        v ∈ default [] (list_attribute dist "keywords") ∧
        v ≠ "UNKNOWN" ∧ strip v ≠ "") ∧
  _get_list dist "keywords"
    `sublist_of` default [] (list_attribute dist "keywords") ∧
  (list_attribute dist_again "keywords" = Some (_get_list dist "keywords") →
   _get_list dist_again "keywords" = _get_list dist "keywords").
Proof.
  split; [reflexivity|].
  apply (SetupPyFacts.get_list_spec dist dist_again "keywords").
Defined.

Lemma dumps_extras_require_witness :
  Forall (λ req, NoDup (envs req)) reqs ∧
  dict_get "dev" (collect (extras_pairs reqs)) =
    (if is_nil (with_env "dev" reqs) then None
     else Some (map _format_req (with_env "dev" reqs))) ∧
  ((∃ v, ("extras_require", v) ∈ dumps_content reqs project) ↔
   ∃ req e, req ∈ reqs ∧ e ∈ envs req) ∧
  (∀ v, ("extras_require", v) ∈ dumps_content reqs project →
        v = VDictOfLists (collect (extras_pairs reqs))).
Proof.
  assert (Forall (λ req, NoDup (envs req)) reqs) as Hs
    by (apply (bool_decide_unpack _); vm_compute; exact I).
  split; [exact Hs|].
  apply (SetupPyFacts.dumps_extras_require reqs project "dev" Hs).
Defined.

(** What [dumps] writes for the two requirements. *)
Example extras_require_of_reqs :
  collect (extras_pairs reqs) =
    [("dev", ["pytest>=3.0"; "flake8[flakes]; python_version>='3.5'"]);
     ("test", ["pytest>=3.0"])].
Proof. reflexivity. Qed.

Lemma dumps_entry_points_witness :
  entrypoints project ≠ [] ∧
  let table :=
    collect (map (λ ep, (ep_group ep, ep_str ep)) (entrypoints project)) in
  let chosen :=
    List.filter (λ ep, String.eqb (ep_group ep) "console_scripts")
                (entrypoints project) in
  dict_get "console_scripts" table =
    (if is_nil chosen then None else Some (map ep_str chosen)) ∧
  (entrypoints project ≠ [] →
   ∀ v, ("entry_points", v) ∈ dumps_content reqs project ↔
        v = VDictOfLists table) ∧
  (entrypoints project = [] →
   "entry_points" ∉ map fst (dumps_content reqs project)).
Proof.
  split; [discriminate|].
  apply (SetupPyFacts.dumps_entry_points reqs project "console_scripts").
Defined.

(** What [dumps] writes for the project and the two requirements. *)
Example dumps_content_of_project :
  dumps_content reqs project =
    [("name", VStr "pkgA"); ("version", VStr "1.0"); ("license", VStr "MIT");
     ("entry_points",
      VDictOfLists [("console_scripts", ["a = pkgA:main"; "b = pkgA:other"])]);
     ("packages", VList ["pkgA"]);
     ("package_data", VDictOfLists []);
     ("install_requires",
      VList ["pytest>=3.0"; "flake8[flakes]; python_version>='3.5'"]);
     ("extras_require",
      VDictOfLists
        [("dev", ["pytest>=3.0"; "flake8[flakes]; python_version>='3.5'"]);
         ("test", ["pytest>=3.0"])])].
Proof. reflexivity. Qed.

End ProjectFacts.
